(** * ETF news bot: a shallow embedding of [etf_new_bot.py]

    The script is a Telegram bot with two command handlers.  Its module
    state is a query cache ([news_cache]), the set of delivered article URLs
    ([seen_articles]) and the file [seen_articles.txt]; its effects are HTTP
    GETs to the news API, lines printed on stdout and messages sent to
    Telegram.  Here the module state and the effect logs are one record that
    every function threads explicitly.

    Every statement below is about one call of a function or of a handler,
    from the state it finds to the state it leaves.  [telebot.TeleBot] runs
    handlers on worker threads, so two handler calls can overlap; nothing is
    stated about how the calls of a process run are ordered or interleaved.

    Conventions of the embedding:
    - a Python [str] is a list of Unicode code points ([list N]); lengths,
      indices and slices count code points, as Python does;
    - [requests.get] and [bot.send_message] are assumed to return: the
      exceptions they can raise are not modelled.  The news API is an oracle
      from the number of requests already made and the query to a response;
    - the [url] of an article, when the key is present, is a string;
    - a handler returns [None] when it does not complete: the
      message-splitting [while] takes fuel and gives [None] when the fuel
      runs out, and writing the file gives [None] when a URL cannot be
      encoded in UTF-8 ([UnicodeEncodeError]);
    - the file is the text Python decodes from it or encodes into it; the
      set is written in the order of [elements], where Python leaves the
      order of a set unspecified: no statement depends on the order. *)

From Stdlib Require Import Strings.String Strings.Ascii Numbers.DecimalString.
From stdpp Require Import gmap list sets option.

#[local] Set Warnings "-clear-no-such-hyp".

Local Open Scope N_scope.
Local Open Scope nat_scope.

(** ** Python strings *)

Module Py.

Definition char := N.
Abbreviation str := (list N).

(** A string literal of the source whose characters are all ASCII. *)
Definition lit (s : string) : str := map N_of_ascii (list_ascii_of_string s).
Arguments lit s%_string.

Definition nl : char := 10%N.
Definition cr : char := 13%N.
Definition backslash : char := 92%N.

(** [str.isspace] on one code point: the table of CPython's
    [_PyUnicode_IsWhitespace]. *)
Definition isspace (c : char) : bool :=
  ((9 <=? c) && (c <=? 13) || (28 <=? c) && (c <=? 32) || (c =? 133)
   || (c =? 160) || (c =? 5760) || (8192 <=? c) && (c <=? 8202)
   || (c =? 8232) || (c =? 8233) || (c =? 8239) || (c =? 8287)
   || (c =? 12288))%N.

Fixpoint lstrip (s : str) : str :=
  match s with
  | c :: t => if isspace c then lstrip t else s
  | [] => []
  end.

Definition rstrip (s : str) : str := reverse (lstrip (reverse s)).

(** [s.strip()] *)
Definition strip (s : str) : str := lstrip (rstrip s).

(** [rfind] of a one-character needle, scanning left to right and keeping
    the last hit; [i] is the index of the head of [s]. *)
Fixpoint rfind_from (c : char) (s : str) (i : Z) (best : Z) : Z :=
  match s with
  | [] => best
  | x :: t => rfind_from c t (i + 1)%Z (if (x =? c)%N then i else best)
  end.

(** [s.rfind(c, start, stop)] for [0 <= start] and [0 <= stop]: the highest
    index in [s[start:stop]] holding [c], or [-1]. *)
Definition rfind (c : char) (s : str) (start stop : nat) : Z :=
  rfind_from c (drop start (take stop s)) (Z.of_nat start) (-1)%Z.

(** A slice bound as Python normalises it: a negative bound counts from the
    end and is clamped at [0]. *)
Definition bound (s : str) (i : Z) : nat :=
  if (i <? 0)%Z then Z.to_nat (Z.of_nat (length s) + i) else Z.to_nat i.

(** [s[:i]] and [s[i:]] *)
Definition slice_to (s : str) (i : Z) : str := take (bound s i) s.
Definition slice_from (s : str) (i : Z) : str := drop (bound s i) s.

(** [s.split(c)] for a one-character separator. *)
Fixpoint split (c : char) (s : str) : list str :=
  match s with
  | [] => [[]]
  | x :: t =>
      if (x =? c)%N then [] :: split c t
      else match split c t with
           | l :: ls => (x :: l) :: ls
           | [] => [[x]]
           end
  end.

(** [str(n)] for a natural number. *)
Definition str_of_nat (n : nat) : str :=
  lit (NilEmpty.string_of_uint (Nat.to_uint n)).

End Py.

Import Py.

(** ** Regular expressions, as far as the script uses them *)

Module Re.

(** The characters [re.escape] protects (CPython's [_special_chars_map]). *)
Definition special_chars : str := lit "()[]{}?*+-|^$\.&~# " ++ [9; 10; 13; 11; 12]%N.

(** [re.escape(s)]: a backslash before every special character. *)
Definition escape (s : str) : str :=
  flat_map (fun c => if bool_decide (c ∈ special_chars) then [backslash; c] else [c]) s.

(** The members of a character class whose body is [body]: a backslash
    followed by a character that is not alphanumeric stands for that
    character, any other character for itself.  (The bodies built here
    contain no range: [re.escape] has put a backslash before every [-].) *)
Fixpoint class_members (body : str) : list char :=
  match body with
  | [] => []
  | c :: t =>
      if (c =? backslash)%N then
        match t with
        | d :: t' => d :: class_members t'
        | [] => []
        end
      else c :: class_members t
  end.

(** [re.sub('([' + body + '])', r'\\\1', text)]: every character of the class
    is replaced by a backslash followed by itself. *)
Definition sub_class_backslash (body : str) (text : str) : str :=
  flat_map (fun c => if bool_decide (c ∈ class_members body) then [backslash; c] else [c]) text.

(** One attempt of ['<[^<]+?>'] just after an opening [<]: the number of
    characters the match takes after the [<], the closing [>] included. *)
Fixpoint tag_rest (s : str) (n : nat) : option nat :=
  match s with
  | [] => None
  | c :: t =>
      if (c =? 62)%N then Some (S n)
      else if (c =? 60)%N then None
      else tag_rest t (S n)
  end.

Definition tag_length (s : str) : option nat :=
  match s with
  | [] => None
  | c :: t => if (c =? 60)%N then None else tag_rest t 1
  end.

(** [re.sub('<[^<]+?>', '', text)]: [skip] is the number of characters of
    the current match still to drop. *)
Fixpoint sub_tags (skip : nat) (text : str) : str :=
  match text with
  | [] => []
  | c :: t =>
      match skip with
      | S k => sub_tags k t
      | O =>
          if (c =? 60)%N then
            match tag_length t with
            | Some n => sub_tags n t
            | None => c :: sub_tags 0 t
            end
          else c :: sub_tags 0 t
      end
  end.

End Re.

(** ** Text formatter *)

(** The raw string literal [r'_*\[\]()~`>#+\-=|{}.!'] of the source: its
    three backslashes are characters of the string. *)
Definition escape_chars : str := lit "_*\[\]()~`>#+\-=|{}.!".

(** [escape_markdown_v2(text)]; [None] is Python's [None]. *)
Definition escape_markdown_v2 (text : option str) : str :=
  match text with
  | None => []
  | Some [] => []
  | Some t => Re.sub_class_backslash (Re.escape escape_chars) t
  end.

(** [strip_html_tags(text)] *)
Definition strip_html_tags (text : option str) : str :=
  Re.sub_tags 0 (default [] text).

(** [escape_url(url)]: [url.replace(")", "%29")] *)
Definition escape_url (url : str) : str :=
  flat_map (fun c => if (c =? 41)%N then lit "%29" else [c]) url.

(** ** Data model *)

(** An article record of the API.  For [title] and [description] the outer
    [None] is a missing key and the inner [None] a JSON [null]; for [url],
    [None] is a missing key. *)
Record article := Article {
  title : option (option str);
  description : option (option str);
  url : option str }.

(** [d.get(key, dflt)] on a field that may be missing. *)
Definition dict_get {A} (field : option A) (dflt : A) : A := default dflt field.

(** What the script reads of an HTTP response: the status and the
    [articles] key of the JSON body ([None] when the key is missing). *)
Record response := Response {
  status_code : nat;
  json_articles : option (list article) }.

(** The news API: the answer to the request number [n] of the process, made
    with query [q] (the date filter is part of the moment [n]). *)
Definition oracle := nat -> str -> response.

(** A call of [bot.send_message]. *)
Record message := Message {
  chat_id : option str;
  text : str;
  parse_mode : option str;
  disable_web_page_preview : option bool }.

(** The incoming Telegram message a handler receives. *)
Record incoming := Incoming {
  from_chat : str;
  body : str }.

(** Module state and effect logs. *)
Record state := State {
  news_cache : gmap str (list article);
  seen_articles : gset str;
  seen_file : option str;
  requests : list str;
  stdout : list str;
  outbox : list message }.

Definition set_cache (c : gmap str (list article)) (st : state) : state :=
  State c (seen_articles st) (seen_file st) (requests st) (stdout st) (outbox st).
Definition set_seen (s : gset str) (st : state) : state :=
  State (news_cache st) s (seen_file st) (requests st) (stdout st) (outbox st).
Definition set_file (f : option str) (st : state) : state :=
  State (news_cache st) (seen_articles st) f (requests st) (stdout st) (outbox st).
Definition http_get (q : str) (st : state) : state :=
  State (news_cache st) (seen_articles st) (seen_file st) (requests st ++ [q]) (stdout st) (outbox st).
Definition print (line : str) (st : state) : state :=
  State (news_cache st) (seen_articles st) (seen_file st) (requests st) (stdout st ++ [line]) (outbox st).
Definition send_message (m : message) (st : state) : state :=
  State (news_cache st) (seen_articles st) (seen_file st) (requests st) (stdout st) (outbox st ++ [m]).

(** ** Deduplication store *)

(** Reading in text mode translates [\r\n] and [\r] to [\n]. *)
Fixpoint universal_newlines (s : str) : str :=
  match s with
  | [] => []
  | c :: t =>
      if (c =? cr)%N then
        match t with
        | d :: t' => if (d =? nl)%N then nl :: universal_newlines t' else nl :: universal_newlines t
        | [] => [nl]
        end
      else c :: universal_newlines t
  end.

(** The lines a text file yields when iterated: each keeps its [\n]. *)
Fixpoint readlines (s : str) : list str :=
  match s with
  | [] => []
  | c :: t =>
      if (c =? nl)%N then [c] :: readlines t
      else match readlines t with
           | l :: ls => (c :: l) :: ls
           | [] => [[c]]
           end
  end.

(** [line.strip() for line in f if line.strip()] on one line. *)
Definition url_of_line (line : str) : option str :=
  match strip line with [] => None | u => Some u end.

(** [load_seen_articles()]; [file] is the content of [SEEN_FILE], [None]
    when the file does not exist. *)
Definition load_seen_articles (file : option str) : gset str :=
  match file with
  | Some content =>
      list_to_set (omap url_of_line (readlines (universal_newlines content)))
  | None => ∅
  end.

(** The text [save_seen_articles] writes for the URLs in iteration order. *)
Definition file_text (urls : list str) : str := flat_map (fun u => u ++ [nl]) urls.

(** A string the [utf-8] codec encodes: no code point is a surrogate
    ([U+D800] to [U+DFFF]). *)
Definition encodable (u : str) : bool :=
  forallb (fun c => (c <? 55296)%N || (57343 <? c)%N) u.

(** [save_seen_articles(seen_set)]: the file is rewritten, in the iteration
    order of the set; [f.write] raises on a URL that cannot be encoded. *)
Definition save_seen_articles (seen_set : gset str) (st : state) : option state :=
  if forallb encodable (elements seen_set)
  then Some (set_file (Some (file_text (elements seen_set))) st)
  else None.

(** The state of the module once its top level has run. *)
Definition startup (file : option str) : state :=
  State ∅ (load_seen_articles file) file [] [] [].

(** ** The ticker table *)

Definition keywords : list (str * str) :=
  [ (lit "VTI",  lit "US stock market OR SP500 OR US economy OR Federal Reserve");
    (lit "VWO",  lit "emerging markets OR China economy OR India economy OR developing countries");
    (lit "TIP",  lit "inflation OR CPI OR TIPS bonds OR US Treasury");
    (lit "GLD",  lit "gold prices OR precious metals OR gold ETF");
    (lit "VNQ",  lit "real estate market OR REITs OR commercial real estate OR housing market");
    (lit "VGIT", lit "interest rates OR treasury yields OR Federal Reserve OR bond market") ].

(** ** News fetcher and command handlers *)

Definition MarkdownV2 : str := lit "MarkdownV2".
Definition bullet : char := 8226%N.

(** The block appended for one article:
    [f"\n• *{title}*\n  {desc}\n  [Read more]({escape_url(url)})\n"] *)
Definition article_block (a : article) : str :=
  let title := escape_markdown_v2 (dict_get (title a) (Some [])) in
  let desc := escape_markdown_v2 (Some (strip_html_tags (dict_get (description a) (Some [])))) in
  let url := dict_get (url a) [] in
  [nl; bullet] ++ lit " *" ++ title ++ lit "*" ++ [nl] ++
  lit "  " ++ desc ++ [nl] ++
  lit "  [Read more](" ++ escape_url url ++ lit ")" ++ [nl].

(** The local variables of one iteration of the ticker loop. *)
Record etf_vars := EtfVars {
  etf_message : str;
  seen_for_etf : gset str;
  has_articles : bool }.

Section Bot.

Context (api : oracle) (CHAT_ID : option str).

(** [get_news(news_query)] *)
Definition get_news (news_query : str) (st : state) : list article * state :=
  match news_cache st !! news_query with
  | Some articles => (articles, st)
  | None =>
      let response := api (length (requests st)) news_query in
      let st := http_get news_query st in
      if status_code response =? 200 then
        let articles := dict_get (json_articles response) [] in
        (articles, set_cache (<[news_query := articles]> (news_cache st)) st)
      else
        ([], print (lit "Error " ++ str_of_nat (status_code response) ++
                    lit " for query " ++ news_query) st)
  end.

(** [send_welcome(_)] *)
Definition send_welcome (_ : incoming) (st : state) : state :=
  send_message
    (Message CHAT_ID (lit "To interact with this bot use command: */getNews*")
             (Some MarkdownV2) (Some true)) st.

(** The body of [for a in articles]. *)
Definition article_step (acc : etf_vars * state) (a : article) : etf_vars * state :=
  let '(v, st) := acc in
  let u := dict_get (url a) [] in
  if bool_decide (u ∈ seen_articles st) || bool_decide (u ∈ seen_for_etf v) then acc
  else
    (EtfVars (etf_message v ++ article_block a) ({[u]} ∪ seen_for_etf v) true,
     set_seen ({[u]} ∪ seen_articles st) st).

(** One iteration of [while len(etf_message) > limit]: the chunk sent and
    the message that remains. *)
Definition split_step (limit : nat) (etf_message : str) : str * str :=
  let split_at := rfind nl etf_message 0 limit in
  let part := slice_to etf_message split_at in
  (strip part, slice_from etf_message split_at).

Definition chunk (t : str) : message :=
  Message CHAT_ID t (Some MarkdownV2) (Some true).

(** The [while] loop; [None] when [fuel] iterations were not enough. *)
Fixpoint split_loop (limit fuel : nat) (etf_message : str) (st : state)
  : option (str * state) :=
  if limit <? length etf_message then
    match fuel with
    | O => None
    | S fuel' =>
        let '(part, rest) := split_step limit etf_message in
        split_loop limit fuel' rest (send_message (chunk part) st)
    end
  else Some (etf_message, st).

(** The body of [for etf, query in keywords.items()]. *)
Definition ticker_step (fuel : nat) (etf query : str) (st : state) : option state :=
  let v0 := EtfVars (lit "*" ++ escape_markdown_v2 (Some etf) ++ lit "*" ++ [nl]) ∅ false in
  let '(articles, st) := get_news query st in
  let '(v, st) := foldl article_step (v0, st) articles in
  if has_articles v then
    match split_loop 4000 fuel (etf_message v) st with
    | Some (rest, st) =>
        Some (match strip rest with
              | [] => st
              | t => send_message (chunk t) st
              end)
    | None => None
    end
  else Some st.

Fixpoint ticker_loop (fuel : nat) (table : list (str * str)) (st : state) : option state :=
  match table with
  | [] => Some st
  | (etf, query) :: table' =>
      match ticker_step fuel etf query st with
      | Some st' => ticker_loop fuel table' st'
      | None => None
      end
  end.

(** [send_news(_)]; [today] is [datetime.now().strftime('%d-%m-%Y')]. *)
Definition send_news (fuel : nat) (_ : incoming) (today : str) (st : state) : option state :=
  let date_str := escape_markdown_v2 (Some today) in
  let st := send_message
              (Message CHAT_ID (lit "*TODAY'S NEWS: " ++ date_str ++ lit "*")
                       (Some MarkdownV2) None) st in
  match ticker_loop fuel keywords st with
  | Some st => save_seen_articles (seen_articles st) st
  | None => None
  end.

(** The commands the handlers are registered for. *)
Inductive command := Start | GetNews.

Record event := Event {
  ev_command : command;
  ev_message : incoming;
  ev_today : str }.

Definition handle (fuel : nat) (e : event) (st : state) : option state :=
  match ev_command e with
  | Start => Some (send_welcome (ev_message e) st)
  | GetNews => send_news fuel (ev_message e) (ev_today e) st
  end.

End Bot.

Arguments split_step : simpl never.
Arguments article_block : simpl never.

(** ** Vocabulary of the statements *)

(** The reserved set as the specification lists it. *)
Definition reserved_set : list char := lit "_*[]()~`>#+-=|{}.!".

(** [escapeMarkup] as the specification words it: one escape character
    before every character of [reserved_set], nothing else changed, absent
    input read as the empty string. *)
Definition escapeMarkup_spec (text : option str) : str :=
  flat_map (fun c => if bool_decide (c ∈ reserved_set) then [backslash; c] else [c])
           (default [] text).

(** A URL the one-per-line text format can hold: not empty, no whitespace
    at either end, no line break inside. *)
Definition storable (u : str) : bool :=
  negb (bool_decide (u = [])) && bool_decide (strip u = u)
  && negb (bool_decide (nl ∈ u)) && negb (bool_decide (cr ∈ u)).

Definition url_key (a : article) : str := dict_get (url a) [].

(** The articles of a fetched list that the filter of [send_news] lets
    through, given the Seen-URL Set when the list is walked. *)
Fixpoint included (seen : gset str) (articles : list article) : list article :=
  match articles with
  | [] => []
  | a :: rest =>
      if bool_decide (url_key a ∈ seen) then included seen rest
      else a :: included ({[url_key a]} ∪ seen) rest
  end.

Definition urls (l : list article) : gset str := list_to_set (map url_key l).


(** The message assembled for a ticker from the articles let through. *)
Definition assemble (etf : str) (inc : list article) : str :=
  (lit "*" ++ escape_markdown_v2 (Some etf) ++ lit "*" ++ [nl]) ++ flat_map article_block inc.

Definition send_all (ms : list message) (st : state) : state :=
  State (news_cache st) (seen_articles st) (seen_file st) (requests st) (stdout st)
        (outbox st ++ ms).

(** The texts the splitting loop sends and the message it leaves. *)
Fixpoint split_chunks (limit fuel : nat) (msg : str) : option (list str * str) :=
  if limit <? length msg then
    match fuel with
    | O => None
    | S fuel' =>
        match split_chunks limit fuel' (split_step limit msg).2 with
        | Some (cs, rest) => Some ((split_step limit msg).1 :: cs, rest)
        | None => None
        end
    end
  else Some ([], msg).

(** All the texts sent for one assembled message: those of the loop, then
    what remains if it is not blank. *)
Definition chunks (limit fuel : nat) (msg : str) : option (list str) :=
  match split_chunks limit fuel msg with
  | Some (cs, rest) => Some (cs ++ match strip rest with [] => [] | t => [t] end)
  | None => None
  end.

(** Every line of [s], as [s.split('\n')] gives them, has at most [n]
    characters. *)
Definition lines_within (n : nat) (s : str) : Prop :=
  Forall (fun l => length l ≤ n) (split nl s).

(** What one iteration of the ticker loop did: the ticker, the list
    [get_news] returned and the articles put in the ticker's message. *)
Record delivery := Delivery {
  d_etf : str;
  d_fetched : list article;
  d_included : list article }.

Section Traces.

Context (api : oracle) (CHAT_ID : option str).

(** The iterations of the ticker loop from [st], as far as the loop gets. *)
Fixpoint cycle_trace (fuel : nat) (table : list (str * str)) (st : state) : list delivery :=
  match table with
  | [] => []
  | (etf, query) :: table' =>
      let '(articles, st1) := get_news api query st in
      Delivery etf articles (included (seen_articles st1) articles) ::
      match ticker_step api CHAT_ID fuel etf query st with
      | Some st' => cycle_trace fuel table' st'
      | None => []
      end
  end.

Definition header_message (today : str) : message :=
  Message CHAT_ID (lit "*TODAY'S NEWS: " ++ escape_markdown_v2 (Some today) ++ lit "*")
          (Some MarkdownV2) None.

(** The iterations of one [send_news] cycle. *)
Definition news_trace (fuel : nat) (today : str) (st : state) : list delivery :=
  cycle_trace fuel keywords (send_message (header_message today) st).

(** The messages of one iteration of the ticker loop. *)
Definition ticker_messages (fuel : nat) (d : delivery) : list message :=
  match d_included d with
  | [] => []
  | inc => map (chunk CHAT_ID) (default [] (chunks 4000 fuel (assemble (d_etf d) inc)))
  end.

End Traces.

(** A trace whose iterations each filter their fetched list against the
    Seen-URL Set left by the iterations before, starting from [S]. *)
Fixpoint threaded (S : gset str) (tr : list delivery) : Prop :=
  match tr with
  | [] => True
  | d :: tr' =>
      d_included d = included S (d_fetched d) ∧
      threaded (urls (d_included d) ∪ S) tr'
  end.

Definition sent_articles (tr : list delivery) : list article := flat_map d_included tr.

(** A text in which every character of the class of [escape_markdown_v2]
    stands right after a backslash that escapes it. *)
Fixpoint well_escaped (s : str) : bool :=
  match s with
  | [] => true
  | c :: t =>
      if (c =? backslash)%N then
        match t with
        | _ :: t' => well_escaped t'
        | [] => false
        end
      else negb (bool_decide (c ∈ backslash :: reserved_set)) && well_escaped t
  end.

(** What the reader of an escaped text sees: a backslash gives way to the
    character after it. *)
Fixpoint unescape (s : str) : str :=
  match s with
  | [] => []
  | c :: t =>
      if (c =? backslash)%N then
        match t with
        | d :: t' => d :: unescape t'
        | [] => []
        end
      else c :: unescape t
  end.

(** Every cached article has its URL in the Seen-URL Set. *)
Definition cache_seen (st : state) : Prop :=
  ∀ q a, news_cache st !! q = Some a → urls a ⊆ seen_articles st.

(** The message left after [n] iterations of the splitting loop, or after
    its last iteration if it ends before. *)
Fixpoint remaining (limit n : nat) (msg : str) : str :=
  match n with
  | O => msg
  | S n' =>
      if limit <? length msg then remaining limit n' (split_step limit msg).2 else msg
  end.

(** Sample inputs for the closed instances below. *)
Module Samples.

Definition story : article :=
  Article (Some (Some (lit "Fed holds rates")))
          (Some (Some (lit "<p>No change.</p>")))
          (Some (lit "https://example.org/fed")).

Definition ok_api : oracle := fun _ _ => Response 200 (Some [story]).
Definition down_api : oracle := fun _ _ => Response 500 None.

Definition me : option str := Some (lit "42").
Definition ping : incoming := Incoming (lit "7") (lit "/getNews").
Definition today : str := lit "03-11-2026".
Definition news_event : event := Event GetNews ping today.
Definition gold : str := lit "gold prices OR precious metals OR gold ETF".

(** A hundred lines of 89 characters: 9000 characters in all. *)
Definition digest : str := flat_map (fun _ => repeat 97%N 89 ++ [nl]) (seq 0 100).

(** An article whose description is one line of 4000 characters. *)
Definition long_story : article :=
  Article (Some (Some (lit "Long read")))
          (Some (Some (repeat 97%N 4000)))
          (Some (lit "https://example.org/long")).

Definition long_api : oracle := fun _ _ => Response 200 (Some [long_story]).

(** The state after one [/getNews] answered by [ok_api]. *)
Definition fetched_state : state :=
  default (startup None) (handle ok_api me 1 news_event (startup None)).

(** The message assembled for [long_story] under the first ticker, and what
    is left of it after the first iteration of the loop. *)
Definition long_message : str := assemble (lit "VTI") [long_story].
Definition stuck_message : str := (split_step 4000 long_message).2.

(** A store that already holds the URL of [story]. *)
Definition fed_file : option str := Some (file_text [lit "https://example.org/fed"]).
Definition fed_seen : state := startup fed_file.
Definition fed_done : state :=
  default fed_seen (send_news ok_api me 1 ping today fed_seen).

Definition fresh_done : state :=
  default (startup None) (send_news ok_api me 1 ping today (startup None)).

Definition other_ping : incoming := Incoming (lit "1001") (lit "/getNews now").

(** An API that answers 200 with a body without [articles]. *)
Definition bare_api : oracle := fun _ _ => Response 200 None.

(** A cycle under a failing API after everything was cached. *)
Definition down_then_done : state :=
  default fetched_state (handle down_api me 1 news_event fetched_state).

(** An article without a [url] key, and an API that answers with it. *)
Definition nameless : article := Article (Some (Some (lit "No link"))) None None.
Definition nameless_api : oracle := fun _ _ => Response 200 (Some [nameless]).
Definition nameless_done : state :=
  default (startup None) (send_news nameless_api me 1 ping today (startup None)).

End Samples.

Import Samples.

(** ** The text formatter: escaping *)

Lemma class_members_escape_chars (c : char) :
  c ∈ Re.class_members (Re.escape escape_chars) ↔ c ∈ backslash :: reserved_set.
Proof.
  assert (H1 : Forall (fun x => x ∈ backslash :: reserved_set)
                      (Re.class_members (Re.escape escape_chars))).
  { apply (bool_decide_unpack _). vm_compute. reflexivity. }
  assert (H2 : Forall (fun x => x ∈ Re.class_members (Re.escape escape_chars))
                      (backslash :: reserved_set)).
  { apply (bool_decide_unpack _). vm_compute. reflexivity. }
  rewrite list.Forall_forall in H1, H2. split; [apply H1|apply H2].
Qed.

Lemma flat_map_ext_bool {A B} (p q : A → bool) (f g : A → list B) (l : list A) :
  (∀ x, p x = q x) →
  flat_map (fun x => if p x then f x else g x) l =
  flat_map (fun x => if q x then f x else g x) l.
Proof.
  intros E. induction l as [|x l IH]; simpl; [done|]. by rewrite E, IH.
Qed.

(** C6, as the code has it: [escape_markdown_v2] puts exactly one backslash
    before every occurrence of a character of the reserved set and of the
    backslash itself, leaves every other character as it is, and maps [None]
    and the empty string to the empty string. *)
Theorem escape_markdown_v2_set :
  escape_markdown_v2 None = [] ∧ escape_markdown_v2 (Some []) = [] ∧
  ∀ text : option str,
    escape_markdown_v2 text =
    flat_map (fun c => if bool_decide (c ∈ backslash :: reserved_set)
                       then [backslash; c] else [c])
             (default [] text).
Proof.
  split; [done|]. split; [done|].
  intros [[|c t]|]; try done.
  unfold escape_markdown_v2, Re.sub_class_backslash.
  apply flat_map_ext_bool. intros x.
  apply bool_decide_ext, class_members_escape_chars.
Qed.

(** C6 as stated fails: the backslash is not in the reserved set of the
    specification, and the code escapes it. *)
Lemma escape_markdown_v2_backslash :
  escape_markdown_v2 (Some (lit "\")) = lit "\\" ∧
  escapeMarkup_spec (Some (lit "\")) = lit "\" ∧
  ¬ (∀ text, escape_markdown_v2 text = escapeMarkup_spec text).
Proof.
  split; [by vm_compute|]. split; [by vm_compute|].
  intros H. specialize (H (Some (lit "\"))). by vm_compute in H.
Qed.

(** ** The deduplication store *)

Lemma rstrip_snoc_space (s : str) (c : char) :
  isspace c = true → rstrip (s ++ [c]) = rstrip s.
Proof. intros H. unfold rstrip. rewrite reverse_snoc. simpl. by rewrite H. Qed.

Lemma universal_newlines_app (u rest : str) :
  cr ∉ u → universal_newlines (u ++ rest) = u ++ universal_newlines rest.
Proof.
  induction u as [|c u IH]; intros H; [done|].
  apply not_elem_of_cons in H as [Hc Hu].
  change ((c :: u) ++ rest) with (c :: (u ++ rest)). simpl.
  destruct (N.eqb_spec c cr) as [->|_]; [done|].
  by rewrite IH.
Qed.

Lemma readlines_line (u rest : str) :
  nl ∉ u → readlines (u ++ nl :: rest) = (u ++ [nl]) :: readlines rest.
Proof.
  induction u as [|c u IH]; intros H; [done|].
  apply not_elem_of_cons in H as [Hc Hu].
  change ((c :: u) ++ nl :: rest) with (c :: (u ++ nl :: rest)). simpl.
  destruct (N.eqb_spec c nl) as [->|_]; [done|].
  by rewrite IH.
Qed.

Lemma storable_inv (u : str) :
  storable u = true → u ≠ [] ∧ strip u = u ∧ (nl ∉ u) ∧ (cr ∉ u).
Proof.
  unfold storable. rewrite !andb_true_iff, !negb_true_iff.
  intros [[[H1 H2] H3] H4].
  apply bool_decide_eq_false in H1, H3, H4. apply bool_decide_eq_true in H2.
  done.
Qed.

Lemma url_of_line_storable (u : str) :
  storable u = true → url_of_line (u ++ [nl]) = Some u.
Proof.
  intros H. apply storable_inv in H as (Hne & Hs & _ & _).
  unfold url_of_line, strip.
  rewrite rstrip_snoc_space by done. fold (strip u). rewrite Hs.
  by destruct u.
Qed.

Lemma read_file_text (l : list str) :
  Forall (fun u => storable u = true) l →
  omap url_of_line (readlines (universal_newlines (file_text l))) = l.
Proof.
  induction 1 as [|u l Hu _ IH]; [done|].
  destruct (storable_inv _ Hu) as (_ & _ & Hnl & Hcr).
  change (file_text (u :: l)) with ((u ++ [nl]) ++ file_text l).
  rewrite <- app_assoc. simpl.
  rewrite universal_newlines_app by done. simpl.
  rewrite readlines_line by done. cbn [omap list_omap].
  by rewrite url_of_line_storable, IH.
Qed.

Lemma file_text_app (l1 l2 : list str) :
  file_text (l1 ++ l2) = file_text l1 ++ file_text l2.
Proof. apply flat_map_app. Qed.

(** The text written for a list of URLs is empty or ends with a newline. *)
Lemma file_text_ends (l : list str) :
  file_text l = [] ∨ ∃ p, file_text l = p ++ [nl].
Proof.
  destruct l as [|x l] using rev_ind; [by left|]. right.
  exists (file_text l ++ x). rewrite file_text_app. simpl.
  by rewrite app_nil_r, app_assoc.
Qed.

(** Translating newlines works piece by piece at a newline. *)
Lemma universal_newlines_at_newline (n : nat) (p rest : str) :
  length p ≤ n →
  universal_newlines (p ++ nl :: rest) =
    universal_newlines (p ++ [nl]) ++ universal_newlines rest ∧
  ∃ r, universal_newlines (p ++ [nl]) = r ++ [nl].
Proof.
  revert p. induction n as [|n IH]; intros p Hn.
  - destruct p; [|simpl in Hn; lia]. split; [done|]. by exists [].
  - destruct p as [|c p]; [split; [done|by exists []]|].
    simpl in Hn. change ((c :: p) ++ nl :: rest) with (c :: (p ++ nl :: rest)).
    change ((c :: p) ++ [nl]) with (c :: (p ++ [nl])).
    cbn [universal_newlines]. destruct (N.eqb_spec c cr) as [->|Hc].
    + destruct p as [|d p].
      * split; [done|]. by exists [].
      * change ((d :: p) ++ nl :: rest) with (d :: (p ++ nl :: rest)).
        change ((d :: p) ++ [nl]) with (d :: (p ++ [nl])).
        cbv iota. destruct (N.eqb_spec d nl) as [->|Hd].
        -- destruct (IH p) as [E [r Er]]; [simpl in Hn; lia|].
           rewrite E. split; [done|]. exists (nl :: r). by rewrite Er.
        -- destruct (IH (d :: p)) as [E [r Er]]; [simpl in Hn |- *; lia|].
           change ((d :: p) ++ nl :: rest) with (d :: (p ++ nl :: rest)) in E.
           change ((d :: p) ++ [nl]) with (d :: (p ++ [nl])) in E, Er.
           rewrite E. split; [done|]. exists (nl :: r). by rewrite Er.
    + destruct (IH p) as [E [r Er]]; [lia|].
      rewrite E. split; [done|]. exists (c :: r). by rewrite Er.
Qed.

(** The lines of a text that ends with a newline stay lines when more text
    follows. *)
Lemma readlines_at_newline (p rest : str) :
  readlines (p ++ nl :: rest) = readlines (p ++ [nl]) ++ readlines rest.
Proof.
  induction p as [|c p IH]; [done|].
  change ((c :: p) ++ nl :: rest) with (c :: (p ++ nl :: rest)).
  change ((c :: p) ++ [nl]) with (c :: (p ++ [nl])).
  cbn [readlines]. destruct (N.eqb_spec c nl) as [->|Hc].
  - by rewrite IH.
  - rewrite IH. destruct (readlines (p ++ [nl])) as [|l ls] eqn:E; [|done].
    exfalso. clear -E. destruct p as [|x p]; [done|].
    simpl in E. destruct (x =? nl)%N; [done|]. by destruct (readlines (p ++ [nl])).
Qed.

(** A URL that the text format can hold is read back from the text written
    for any list that has it, whatever the other URLs are. *)
Lemma stored_url_is_read (l : list str) (u : str) :
  storable u = true → u ∈ l →
  u ∈ omap url_of_line (readlines (universal_newlines (file_text l))).
Proof.
  intros Hu Hin. apply list_elem_of_split in Hin as (l1 & l2 & ->).
  destruct (storable_inv _ Hu) as (_ & _ & Hnl & Hcr).
  assert (Hline : readlines (universal_newlines ((u ++ [nl]) ++ file_text l2)) =
                  (u ++ [nl]) :: readlines (universal_newlines (file_text l2))).
  { rewrite <- app_assoc. rewrite universal_newlines_app by done.
    change (universal_newlines ([nl] ++ file_text l2))
      with (nl :: universal_newlines (file_text l2)).
    by rewrite readlines_line. }
  apply list_elem_of_omap. exists (u ++ [nl]).
  split; [|by apply url_of_line_storable].
  rewrite file_text_app.
  change (file_text (u :: l2)) with ((u ++ [nl]) ++ file_text l2).
  destruct (file_text_ends l1) as [->|[p ->]].
  - rewrite app_nil_l, Hline. apply list_elem_of_here.
  - destruct (universal_newlines_at_newline (length p) p ((u ++ [nl]) ++ file_text l2))
      as [E [r Er]]; [done|].
    rewrite <- (app_assoc p [nl]).
    rewrite (E : universal_newlines (p ++ [nl] ++ (u ++ [nl]) ++ file_text l2) = _), Er.
    rewrite <- (app_assoc r [nl]).
    rewrite (readlines_at_newline r _ : readlines (r ++ [nl] ++ _) = _), Hline.
    apply elem_of_app. right. apply list_elem_of_here.
Qed.

Lemma save_seen_articles_Some (S : gset str) (st st' : state) :
  save_seen_articles S st = Some st' →
  st' = set_file (Some (file_text (elements S))) st ∧
  ∀ u, u ∈ S → encodable u = true.
Proof.
  unfold save_seen_articles.
  destruct (forallb encodable (elements S)) eqn:E; [|done].
  intros [= <-]. split; [done|]. intros u Hu.
  rewrite forallb_forall in E. apply E, list_elem_of_In, elem_of_elements, Hu.
Qed.

Lemma save_seen_articles_encodable (S : gset str) (st : state) :
  (∀ u, u ∈ S → encodable u = true) →
  save_seen_articles S st = Some (set_file (Some (file_text (elements S))) st).
Proof.
  intros H. unfold save_seen_articles.
  replace (forallb encodable (elements S)) with true; [done|].
  symmetry. apply forallb_forall. intros u Hu.
  apply H, elem_of_elements, list_elem_of_In, Hu.
Qed.

(** What loading finds in the file a save has written: every URL of the set
    that the text format can hold, and the whole set when all are such. *)
Lemma saved_file_holds (S : gset str) (st st' : state) :
  save_seen_articles S st = Some st' →
  (∀ u, u ∈ S → storable u = true → u ∈ load_seen_articles (seen_file st')) ∧
  ((∀ u, u ∈ S → storable u = true) → load_seen_articles (seen_file st') = S).
Proof.
  intros H. apply save_seen_articles_Some in H as [-> _].
  cbn [set_file seen_file load_seen_articles]. split.
  - intros u Hu Hs. apply elem_of_list_to_set.
    apply stored_url_is_read; [done|]. by apply elem_of_elements.
  - intros Hall. rewrite read_file_text.
    + apply list_to_set_elements_L.
    + apply list.Forall_forall. intros u Hu. apply Hall, elem_of_elements, Hu.
Qed.

(** C7, as the code has it: a set of URLs that are each non-empty, without
    whitespace at either end, without a line break and encodable in UTF-8
    is written without error and read back exactly; loading when the file
    is absent gives the empty set. *)
Theorem save_load_roundtrip (S : gset str) (st : state) :
  (∀ u, u ∈ S → storable u = true ∧ encodable u = true) →
  (∃ st', save_seen_articles S st = Some st' ∧
          load_seen_articles (seen_file st') = S) ∧
  load_seen_articles None = ∅.
Proof.
  intros H. split; [|done].
  exists (set_file (Some (file_text (elements S))) st).
  assert (Hsave : save_seen_articles S st =
                  Some (set_file (Some (file_text (elements S))) st)).
  { apply save_seen_articles_encodable. intros u Hu. by apply H. }
  split; [done|].
  apply saved_file_holds in Hsave as [_ Hall]. apply Hall.
  intros u Hu. by apply H.
Qed.

Lemma save_load_roundtrip_witness :
  (∃ st', save_seen_articles {[lit "https://example.org/a"]} (startup None) = Some st' ∧
          load_seen_articles (seen_file st') = {[lit "https://example.org/a"]}) ∧
  load_seen_articles None = ∅.
Proof.
  apply (save_load_roundtrip {[lit "https://example.org/a"]} (startup None)).
  intros u Hu. apply elem_of_singleton in Hu as ->. split; vm_compute; reflexivity.
Defined.

(** C7 as stated fails: the empty URL (an article without a [url] key is
    recorded under it) is written as an empty line, which loading skips;
    a URL with a blank at its end comes back without it. *)
Lemma save_load_loses_empty_url :
  (∃ st', save_seen_articles {[ [] ]} (startup None) = Some st' ∧
          load_seen_articles (seen_file st') ≠ {[ [] ]}) ∧
  (∃ st', save_seen_articles {[lit "u "]} (startup None) = Some st' ∧
          load_seen_articles (seen_file st') ≠ {[lit "u "]}).
Proof.
  split.
  - exists (set_file (Some (file_text (elements ({[ [] ]} : gset str)))) (startup None)).
    split; [by vm_compute|].
    intros H. assert (E : [] ∈ ({[ [] ]} : gset str)) by set_solver.
    rewrite <- H in E. revert E. apply (bool_decide_eq_false_1 _). by vm_compute.
  - exists (set_file (Some (file_text (elements ({[ lit "u " ]} : gset str)))) (startup None)).
    split; [by vm_compute|].
    intros H. assert (E : lit "u " ∈ ({[ lit "u " ]} : gset str)) by set_solver.
    rewrite <- H in E. revert E. apply (bool_decide_eq_false_1 _). by vm_compute.
Qed.

(** A URL with a lone surrogate, which [json.loads] can produce, is not
    written: the save raises. *)
Lemma save_raises_on_surrogate (st : state) :
  save_seen_articles {[lit "https://example.org/" ++ [55296%N]]} st = None.
Proof.
  unfold save_seen_articles. rewrite elements_singleton. reflexivity.
Qed.

(** ** The dispatcher in closed form *)

Lemma state_eta (st : state) :
  State (news_cache st) (seen_articles st) (seen_file st) (requests st) (stdout st)
        (outbox st) = st.
Proof. by destruct st. Qed.

Lemma send_all_nil st : send_all [] st = st.
Proof. unfold send_all. rewrite app_nil_r. apply state_eta. Qed.

Lemma send_all_app ms1 ms2 st : send_all ms2 (send_all ms1 st) = send_all (ms1 ++ ms2) st.
Proof. unfold send_all. simpl. by rewrite app_assoc. Qed.

Lemma send_message_send_all m st : send_message m st = send_all [m] st.
Proof. done. Qed.

Lemma foldl_article_step (arts : list article) (v : etf_vars) (st : state) :
  seen_for_etf v ⊆ seen_articles st →
  foldl article_step (v, st) arts =
  let inc := included (seen_articles st) arts in
  (EtfVars (etf_message v ++ flat_map article_block inc)
           (urls inc ∪ seen_for_etf v)
           (match inc with [] => has_articles v | _ => true end),
   set_seen (urls inc ∪ seen_articles st) st).
Proof.
  revert v st. induction arts as [|a arts IH]; intros v st Hsub; cbn -[article_block].
  - unfold urls, set_seen. simpl. rewrite app_nil_r, !(left_id_L ∅ (∪)).
    rewrite state_eta. by destruct v.
  - fold (url_key a). destruct (bool_decide_reflect (url_key a ∈ seen_articles st)) as [Hin|Hin].
    + cbn [orb]. by rewrite IH.
    + replace (bool_decide (url_key a ∈ seen_for_etf v)) with false
        by (symmetry; apply bool_decide_eq_false; set_solver).
      cbn [orb]. rewrite IH by (simpl; set_solver).
      unfold urls, set_seen. cbn -[article_block].
      f_equal; [f_equal|f_equal].
      * by rewrite <- app_assoc.
      * by rewrite (assoc_L (∪)), (comm_L (∪) (list_to_set _) {[url_key a]}).
      * by destruct (included _ arts).
      * by rewrite (assoc_L (∪)), (comm_L (∪) (list_to_set _) {[url_key a]}).
Qed.

Lemma split_loop_chunks (CHAT_ID : option str) (limit fuel : nat) (msg : str) (st : state) :
  split_loop CHAT_ID limit fuel msg st =
  match split_chunks limit fuel msg with
  | Some (cs, rest) => Some (rest, send_all (map (chunk CHAT_ID) cs) st)
  | None => None
  end.
Proof.
  revert msg st. induction fuel as [|fuel IH]; intros msg st; simpl.
  - destruct (limit <? length msg); [done|]. by rewrite send_all_nil.
  - destruct (limit <? length msg); [|by rewrite send_all_nil].
    rewrite IH. unfold split_step. simpl.
    destruct (split_chunks limit fuel _) as [[cs r]|]; [|done].
    simpl. by rewrite send_message_send_all, send_all_app.
Qed.

Section Closed_forms.

Context (api : oracle) (CHAT_ID : option str).

Lemma get_news_hit q st arts :
  news_cache st !! q = Some arts → get_news api q st = (arts, st).
Proof. intros H. unfold get_news. by rewrite H. Qed.

Lemma get_news_ok q st :
  news_cache st !! q = None →
  status_code (api (length (requests st)) q) = 200 →
  get_news api q st =
  (dict_get (json_articles (api (length (requests st)) q)) [],
   set_cache (<[q := dict_get (json_articles (api (length (requests st)) q)) []]>
                (news_cache st)) (http_get q st)).
Proof. intros H1 H2. unfold get_news. by rewrite H1, H2. Qed.

Lemma get_news_error q st :
  news_cache st !! q = None →
  status_code (api (length (requests st)) q) ≠ 200 →
  get_news api q st =
  ([], print (lit "Error " ++ str_of_nat (status_code (api (length (requests st)) q)) ++
              lit " for query " ++ q) (http_get q st)).
Proof.
  intros H1 H2. unfold get_news. rewrite H1.
  by destruct (Nat.eqb_spec (status_code (api (length (requests st)) q)) 200).
Qed.

(** [get_news] touches neither the Seen-URL Set, nor the file, nor the
    outgoing messages. *)
Lemma get_news_frame q st :
  seen_articles (get_news api q st).2 = seen_articles st ∧
  seen_file (get_news api q st).2 = seen_file st ∧
  outbox (get_news api q st).2 = outbox st.
Proof.
  unfold get_news. destruct (news_cache st !! q); [done|].
  by destruct (status_code _ =? 200).
Qed.

Lemma set_seen_id st : set_seen (seen_articles st) st = st.
Proof. apply state_eta. Qed.

Lemma ticker_step_eq fuel etf q st :
  ticker_step api CHAT_ID fuel etf q st =
  match included (seen_articles (get_news api q st).2) (get_news api q st).1 with
  | [] => Some (get_news api q st).2
  | inc =>
      match chunks 4000 fuel (assemble etf inc) with
      | Some cs =>
          Some (send_all (map (chunk CHAT_ID) cs)
                  (set_seen (urls inc ∪ seen_articles (get_news api q st).2)
                            (get_news api q st).2))
      | None => None
      end
  end.
Proof.
  unfold ticker_step. destruct (get_news api q st) as [arts st1]. cbn [fst snd].
  rewrite foldl_article_step by (cbn [seen_for_etf]; set_solver).
  cbn [etf_message has_articles seen_for_etf].
  destruct (included (seen_articles st1) arts) as [|a inc] eqn:E.
  - unfold urls. cbn [map list_to_set]. by rewrite (left_id_L ∅ (∪)), set_seen_id.
  - rewrite split_loop_chunks. unfold chunks, assemble.
    destruct (split_chunks 4000 fuel _) as [[cs rest]|]; [|done].
    destruct (strip rest) as [|c t].
    + by rewrite app_nil_r.
    + by rewrite map_app, send_message_send_all, send_all_app.
Qed.

End Closed_forms.

(** ** The news fetcher *)

(** C3, as the code has it: a call of [get_news] that finds its query in
    the cache makes no request and returns the cached list; a call with a
    query that is not cached makes one request and, when the answer has
    status 200, stores the article list of the answer under the query, so
    that a call with the query from the state it leaves makes no request
    and returns that list. *)
Theorem successful_fetch_is_cached api q st :
  news_cache st !! q = None →
  status_code (api (length (requests st)) q) = 200 →
  let arts := dict_get (json_articles (api (length (requests st)) q)) [] in
  let st1 := (get_news api q st).2 in
  (get_news api q st).1 = arts ∧
  requests st1 = requests st ++ [q] ∧
  news_cache st1 !! q = Some arts ∧
  get_news api q st1 = (arts, st1) ∧
  requests (get_news api q st1).2 = requests st ++ [q] ∧
  (∀ s cached, news_cache s !! q = Some cached → get_news api q s = (cached, s)).
Proof.
  intros Hc H200 arts st1. subst st1.
  rewrite (get_news_ok api q st Hc H200). fold arts. cbn [fst snd].
  assert (Hin : news_cache (set_cache (<[q:=arts]> (news_cache st)) (http_get q st)) !! q
                = Some arts) by apply lookup_insert_eq.
  split; [done|]. split; [done|]. split; [done|].
  rewrite (get_news_hit api q _ arts Hin).
  split; [done|]. split; [done|].
  intros s cached Hs. by apply get_news_hit.
Qed.

Lemma Some_default {A} (o : option A) (d : A) :
  match o with Some _ => true | None => false end = true → o = Some (default d o).
Proof. by destruct o. Qed.

Lemma successful_fetch_is_cached_witness :
  let st1 := (get_news ok_api gold (startup None)).2 in
  (get_news ok_api gold (startup None)).1 = [story] ∧
  requests st1 = [gold] ∧
  news_cache st1 !! gold = Some [story] ∧
  get_news ok_api gold st1 = ([story], st1) ∧
  requests (get_news ok_api gold st1).2 = [gold] ∧
  (∀ s cached, news_cache s !! gold = Some cached → get_news ok_api gold s = (cached, s)).
Proof.
  apply (successful_fetch_is_cached ok_api gold (startup None)).
  - reflexivity.
  - reflexivity.
Defined.

(** C3 as stated fails: a query answered with another status than 200 is
    not cached, and the second call with it contacts the API again. *)
Lemma failed_fetch_is_retried :
  let st1 := (get_news down_api gold (startup None)).2 in
  requests st1 = [gold] ∧
  requests (get_news down_api gold st1).2 = [gold; gold] ∧
  (get_news down_api gold st1).2 ≠ st1.
Proof.
  split; [by vm_compute|]. split; [by vm_compute|].
  intros H. apply (f_equal requests) in H. by vm_compute in H.
Qed.

(** C5: when the API answers a query that is not cached with a status other
    than 200, [get_news] prints the status and the query, returns the empty
    list and leaves the cache as it was, so that the next call with the
    query goes to the network again; the iteration of the ticker loop for
    the ticker completes without sending anything, and the loop goes on
    with the rest of the table from the state [get_news] left. *)
Theorem non_200_skips_ticker api CHAT_ID fuel etf q table st :
  news_cache st !! q = None →
  status_code (api (length (requests st)) q) ≠ 200 →
  let line := lit "Error " ++ str_of_nat (status_code (api (length (requests st)) q)) ++
              lit " for query " ++ q in
  let st1 := print line (http_get q st) in
  get_news api q st = ([], st1) ∧
  news_cache st1 = news_cache st ∧
  stdout st1 = stdout st ++ [line] ∧
  requests (get_news api q st1).2 = requests st ++ [q; q] ∧
  outbox st1 = outbox st ∧
  ticker_step api CHAT_ID fuel etf q st = Some st1 ∧
  ticker_loop api CHAT_ID fuel [(etf, q)] st = Some st1 ∧
  ticker_loop api CHAT_ID fuel ((etf, q) :: table) st = ticker_loop api CHAT_ID fuel table st1.
Proof.
  intros Hc Hs line st1.
  assert (Hg : get_news api q st = ([], st1)) by by apply get_news_error.
  assert (Ht : ticker_step api CHAT_ID fuel etf q st = Some st1)
    by by rewrite ticker_step_eq, Hg.
  split; [done|]. split; [done|]. split; [done|].
  split; [|split; [done|split; [done|split]]].
  - unfold get_news. replace (news_cache st1 !! q) with (@None (list article)) by done.
    destruct (status_code _ =? 200); cbn; by rewrite <- app_assoc.
  - cbn [ticker_loop]. by rewrite Ht.
  - cbn [ticker_loop]. by rewrite Ht.
Qed.

Lemma non_200_skips_ticker_witness :
  let st := startup None in
  let st1 := print (lit "Error 500 for query gold prices OR precious metals OR gold ETF")
                   (http_get gold st) in
  get_news down_api gold st = ([], st1) ∧
  news_cache st1 = news_cache st ∧
  stdout st1 = stdout st ++ [lit "Error 500 for query gold prices OR precious metals OR gold ETF"] ∧
  requests (get_news down_api gold st1).2 = requests st ++ [gold; gold] ∧
  outbox st1 = outbox st ∧
  ticker_step down_api me 1 (lit "GLD") gold st = Some st1 ∧
  ticker_loop down_api me 1 [(lit "GLD", gold)] st = Some st1 ∧
  ticker_loop down_api me 1 ((lit "GLD", gold) :: []) st = ticker_loop down_api me 1 [] st1.
Proof.
  apply (non_200_skips_ticker down_api me 1 (lit "GLD") gold [] (startup None)).
  - reflexivity.
  - vm_compute. discriminate.
Defined.

(** ** The message-splitting loop *)

Section Splitting.

Lemma rfind_from_spec (c : char) (s : str) (i best : Z) :
  (rfind_from c s i best = best ∧ c ∉ s) ∨
  (∃ k : nat, rfind_from c s i best = (i + Z.of_nat k)%Z ∧ s !! k = Some c ∧
              ∀ k', k < k' → s !! k' ≠ Some c).
Proof.
  revert i best. induction s as [|x t IH]; intros i best; simpl.
  - left. split; [done|]. apply not_elem_of_nil.
  - destruct (IH (i + 1)%Z (if (x =? c)%N then i else best)) as [[Hr Hn]|(k & Hr & Hk & Hmax)].
    + destruct (N.eqb_spec x c) as [->|Hne].
      * right. exists 0. split; [lia|]. split; [done|].
        intros [|k'] Hlt; [lia|]. simpl. intros Hk.
        apply Hn. by eapply list_elem_of_lookup_2.
      * left. split; [done|]. apply not_elem_of_cons. split; [congruence|done].
    + right. exists (S k). split; [lia|]. split; [done|].
      intros [|k'] Hlt; [lia|]. simpl. apply Hmax. lia.
Qed.

(** [rfind] returns the last position before [stop] that holds [c]. *)
Lemma rfind_found (c : char) (s : str) (stop i : nat) :
  s !! i = Some c → i < stop →
  ∃ k, rfind c s 0 stop = Z.of_nat k ∧ i ≤ k < stop ∧ s !! k = Some c.
Proof.
  intros Hi Hlt. unfold rfind. rewrite drop_0. change (Z.of_nat 0) with 0%Z.
  assert (Ht : take stop s !! i = Some c) by by rewrite lookup_take_lt.
  destruct (rfind_from_spec c (take stop s) 0 (-1)) as [[_ Hn]|(k & Hr & Hk & Hmax)].
  - exfalso. apply Hn. by eapply list_elem_of_lookup_2.
  - exists k. split; [rewrite Hr; lia|].
    assert (k < stop).
    { apply lookup_lt_Some in Hk. rewrite length_take in Hk. lia. }
    rewrite lookup_take_lt in Hk by done. split; [|done]. split; [|done].
    destruct (decide (i ≤ k)) as [|Hgt]; [done|]. exfalso.
    apply (Hmax i); [lia|done].
Qed.

Lemma split_not_nil (s : str) : split nl s ≠ [].
Proof. destruct s as [|x t]; simpl; [done|]. destruct (x =? nl)%N; [done|]. by destruct (split nl t). Qed.

Lemma lines_within_tail (n : nat) (c : char) (s : str) :
  lines_within n (c :: s) → lines_within n s.
Proof.
  unfold lines_within. simpl. destruct (c =? nl)%N.
  - by inversion 1.
  - pose proof (split_not_nil s). destruct (split nl s) as [|l ls]; [done|].
    inversion 1; subst. constructor; [|done]. simpl in *. lia.
Qed.

Lemma lines_within_drop (n k : nat) (s : str) :
  lines_within n s → lines_within n (drop k s).
Proof.
  revert s. induction k as [|k IH]; intros [|c s] H; simpl; try done.
  apply IH. by eapply lines_within_tail.
Qed.

(** A string longer than its first line has a newline right after it. *)
Lemma first_newline (s : str) (n : nat) :
  length (hd [] (split nl s)) ≤ n → n < length s →
  ∃ i, i ≤ n ∧ s !! i = Some nl.
Proof.
  revert n. induction s as [|c s IH]; intros n Hhd Hlen; simpl in *; [lia|].
  destruct (N.eqb_spec c nl) as [->|Hne].
  - exists 0. split; [lia|done].
  - pose proof (split_not_nil s). destruct (split nl s) as [|l ls]; [done|].
    simpl in *. destruct n as [|n]; [lia|].
    destruct (IH n) as (i & Hi & Hnl); [lia..|].
    exists (S i). split; [lia|done].
Qed.

Lemma lines_within_hd (n : nat) (s : str) :
  lines_within n s → length (hd [] (split nl s)) ≤ n.
Proof.
  unfold lines_within. pose proof (split_not_nil s).
  destruct (split nl s); [done|]. by inversion 1.
Qed.

(** With lines of at most [n] characters, a string of more than [n + 2]
    characters has a newline at a position from [1] to [n + 1]. *)
Lemma inner_newline (n : nat) (s : str) :
  lines_within n s → n + 2 < length s →
  ∃ i, 1 ≤ i ≤ n + 1 ∧ s !! i = Some nl.
Proof.
  intros Hl Hlen. destruct s as [|c s]; simpl in Hlen; [lia|].
  destruct (decide (c = nl)) as [->|Hne].
  - apply lines_within_tail in Hl.
    destruct (first_newline s n) as (i & Hi & Hnl); [by apply lines_within_hd|lia|].
    exists (S i). split; [lia|done].
  - destruct (first_newline (c :: s) n) as (i & Hi & Hnl);
      [by apply lines_within_hd|simpl; lia|].
    destruct i as [|i]; [simpl in Hnl; congruence|].
    exists (S i). split; [lia|done].
Qed.

(** Where the loop cuts a message with lines of at most [n] characters. *)
Lemma split_at_newline (n : nat) (s : str) :
  lines_within n s → n + 2 < length s →
  ∃ k, rfind nl s 0 (n + 2) = Z.of_nat k ∧ 1 ≤ k < n + 2 ∧ s !! k = Some nl.
Proof.
  intros Hl Hlen. destruct (inner_newline n s Hl Hlen) as (i & Hi & Hnl).
  destruct (rfind_found nl s (n + 2) i Hnl) as (k & Hr & Hk & Hs); [lia|].
  exists k. split; [done|]. split; [lia|done].
Qed.

Lemma bound_nat (s : str) (k : nat) : bound s (Z.of_nat k) = k.
Proof. unfold bound. destruct (Z.ltb_spec (Z.of_nat k) 0); lia. Qed.

(** One iteration strictly shortens the message and keeps its lines short. *)
Lemma split_step_shrinks (n : nat) (s : str) :
  lines_within n s → n + 2 < length s →
  length (split_step (n + 2) s).2 < length s ∧
  lines_within n (split_step (n + 2) s).2.
Proof.
  intros Hl Hlen. destruct (split_at_newline n s Hl Hlen) as (k & Hr & Hk & _).
  unfold split_step. cbn [snd]. rewrite Hr. unfold slice_from. rewrite bound_nat.
  split; [rewrite length_drop; lia|by apply lines_within_drop].
Qed.

Lemma split_chunks_terminates (n : nat) (fuel : nat) (s : str) :
  lines_within n s → length s ≤ fuel →
  ∃ cs rest, split_chunks (n + 2) fuel s = Some (cs, rest) ∧ length rest ≤ n + 2.
Proof.
  revert s. induction fuel as [|fuel IH]; intros s Hl Hfuel; cbn [split_chunks].
  - destruct (Nat.ltb_spec (n + 2) (length s)); [lia|]. by exists [], s.
  - destruct (Nat.ltb_spec (n + 2) (length s)) as [Hlen|Hlen]; [|by exists [], s].
    destruct (split_step_shrinks n s Hl Hlen) as [Hshort Hl'].
    destruct (IH (split_step (n + 2) s).2 Hl') as (cs & rest & -> & Hrest); [lia|].
    by eexists _, _.
Qed.

Lemma lstrip_length (s : str) : length (lstrip s) ≤ length s.
Proof. induction s as [|c s IH]; simpl; [done|]. destruct (isspace c); simpl; lia. Qed.

Lemma strip_length (s : str) : length (strip s) ≤ length s.
Proof.
  unfold strip, rstrip. etrans; [apply lstrip_length|].
  rewrite length_reverse. etrans; [apply lstrip_length|]. by rewrite length_reverse.
Qed.


(** A message on which an iteration makes no progress is never left. *)
Lemma split_chunks_stuck (limit : nat) (s : str) :
  limit < length s → (split_step limit s).2 = s →
  ∀ fuel, split_chunks limit fuel s = None.
Proof.
  intros Hlen Hfix fuel. induction fuel as [|fuel IH]; cbn [split_chunks];
    destruct (Nat.ltb_spec limit (length s)); try lia; [done|].
  by rewrite Hfix, IH.
Qed.

Lemma split_chunks_step_none (limit : nat) (s s' : str) :
  limit < length s → (split_step limit s).2 = s' →
  (∀ fuel, split_chunks limit fuel s' = None) →
  ∀ fuel, split_chunks limit fuel s = None.
Proof.
  intros Hlen <- Hnone [|fuel]; cbn [split_chunks];
    destruct (Nat.ltb_spec limit (length s)); try lia; [done|].
  by rewrite Hnone.
Qed.

End Splitting.


(** C8: for a message whose lines have at most 3998 characters, every
    iteration of the splitting loop strictly shortens the message and keeps
    its lines that short, and the loop ends, with fuel the length of the
    message, having sent finitely many chunks and leaving at most 4000
    characters. *)
Theorem split_loop_terminates CHAT_ID (msg : str) (st : state) :
  lines_within 3998 msg →
  (4000 < length msg →
   length (split_step 4000 msg).2 < length msg ∧
   lines_within 3998 (split_step 4000 msg).2) ∧
  ∀ fuel, length msg ≤ fuel →
    ∃ cs rest,
      split_loop CHAT_ID 4000 fuel msg st =
        Some (rest, send_all (map (chunk CHAT_ID) cs) st) ∧
      length rest ≤ 4000.
Proof.
  intros Hl. change 4000 with (3998 + 2). split.
  - intros Hlen. by apply split_step_shrinks.
  - intros fuel Hfuel. rewrite split_loop_chunks.
    destruct (split_chunks_terminates 3998 fuel msg Hl Hfuel) as (cs & rest & -> & Hrest).
    by exists cs, rest.
Qed.


Lemma split_loop_terminates_witness :
  (4000 < length digest →
   length (split_step 4000 digest).2 < length digest ∧
   lines_within 3998 (split_step 4000 digest).2) ∧
  ∀ fuel, length digest ≤ fuel →
    ∃ cs rest,
      split_loop me 4000 fuel digest (startup None) =
        Some (rest, send_all (map (chunk me) cs) (startup None)) ∧
      length rest ≤ 4000.
Proof.
  apply (split_loop_terminates me digest (startup None)).
  unfold lines_within. apply (bool_decide_unpack _). vm_compute. reflexivity.
Defined.

(** The scenario of the specification: 9000 characters with a newline every
    90 give three chunks, none longer than 4000 characters. *)
Example digest_three_chunks :
  ∃ c1 c2 c3, chunks 4000 (length digest) digest = Some [c1; c2; c3] ∧
              length c1 ≤ 4000 ∧ length c2 ≤ 4000 ∧ length c3 ≤ 4000.
Proof.
  eexists _, _, _. split; [vm_compute; reflexivity|].
  repeat split; apply Nat.leb_le; vm_compute; reflexivity.
Qed.

Lemma long_message_length : 4000 < length long_message.
Proof. apply Nat.ltb_lt. vm_compute. reflexivity. Qed.

Lemma stuck_message_length : 4000 < length stuck_message.
Proof. apply Nat.ltb_lt. vm_compute. reflexivity. Qed.

Lemma stuck_message_sent : (split_step 4000 stuck_message).1 = [].
Proof. vm_compute. reflexivity. Qed.

Lemma stuck_message_left : (split_step 4000 stuck_message).2 = stuck_message.
Proof. vm_compute. reflexivity. Qed.

Lemma long_message_chunks (fuel : nat) : chunks 4000 fuel long_message = None.
Proof.
  unfold chunks.
  rewrite (split_chunks_step_none 4000 long_message stuck_message long_message_length).
  - reflexivity.
  - vm_compute. reflexivity.
  - exact (split_chunks_stuck 4000 stuck_message stuck_message_length stuck_message_left).
Qed.

(** C1 at an article whose description is a line of 4000 characters: the
    loop sends the part of the message before that line, then finds the only
    newline of the first 4000 characters at position 0, sends the empty
    text and keeps the whole remainder, for ever.  The cycle never completes
    and the remainder is never sent. *)
Theorem long_line_blocks_the_cycle :
  4000 < length stuck_message ∧
  (split_step 4000 stuck_message).1 = [] ∧
  (split_step 4000 stuck_message).2 = stuck_message ∧
  ∀ fuel, send_news long_api me fuel ping today (startup None) = None.
Proof.
  split; [exact stuck_message_length|]. split; [exact stuck_message_sent|].
  split; [exact stuck_message_left|].
  intros fuel. unfold send_news, keywords. cbn [ticker_loop]. rewrite ticker_step_eq.
  set (st := send_message _ (startup None)).
  set (q := lit "US stock market OR SP500 OR US economy OR Federal Reserve").
  assert (Hg : (get_news long_api q st).1 = [long_story]) by (vm_compute; reflexivity).
  rewrite Hg.
  assert (Hi : included (seen_articles (get_news long_api q st).2) [long_story]
               = [long_story]) by (vm_compute; reflexivity).
  rewrite Hi. cbv beta iota zeta. fold long_message.
  rewrite long_message_chunks. reflexivity.
Qed.

(** ** The dispatcher: which articles go out *)

Section Included.

Lemma included_fresh (S : gset str) (l : list article) (a : article) :
  a ∈ included S l → (url_key a ∉ S) ∧ a ∈ l.
Proof.
  revert S. induction l as [|b l IH]; intros S; simpl; [by intros ?%elem_of_nil|].
  destruct (bool_decide_reflect (url_key b ∈ S)) as [Hin|Hin].
  - intros [? ?]%IH. split; [done|by right].
  - intros [->|Ha]%elem_of_cons; [split; [done|by left]|].
    apply IH in Ha as [? ?]. split; [set_solver|by right].
Qed.

Lemma urls_cons (a : article) (l : list article) : urls (a :: l) = {[url_key a]} ∪ urls l.
Proof. done. Qed.

Lemma urls_app (l1 l2 : list article) : urls (l1 ++ l2) = urls l1 ∪ urls l2.
Proof. unfold urls. rewrite map_app. apply list_to_set_app_L. Qed.





End Included.

Section Threaded.



Lemma threaded_fresh (S : gset str) (tr : list delivery) (d : delivery) (a : article) :
  threaded S tr → d ∈ tr → a ∈ d_included d → url_key a ∉ S.
Proof.
  revert S. induction tr as [|d0 tr IH]; intros S Ht Hd Ha; [by apply elem_of_nil in Hd|].
  destruct Ht as [Hinc Ht]. apply elem_of_cons in Hd as [->|Hd].
  - rewrite Hinc in Ha. by apply included_fresh in Ha as [? _].
  - specialize (IH _ Ht Hd Ha). set_solver.
Qed.






End Threaded.

Section Dispatcher.

Context (api : oracle) (CHAT_ID : option str).

Lemma ticker_step_effect fuel etf q st st1 :
  ticker_step api CHAT_ID fuel etf q st = Some st1 →
  let d := Delivery etf (get_news api q st).1
                    (included (seen_articles st) (get_news api q st).1) in
  seen_articles st1 = urls (d_included d) ∪ seen_articles st ∧
  seen_file st1 = seen_file st ∧
  outbox st1 = outbox st ++ ticker_messages CHAT_ID fuel d.
Proof.
  rewrite ticker_step_eq. destruct (get_news_frame api q st) as (Hs & Hf & Ho).
  rewrite Hs. unfold ticker_messages. cbn [d_included d_etf].
  destruct (included (seen_articles st) (get_news api q st).1) as [|a inc] eqn:E.
  - intros [= <-]. rewrite Hs, Hf, Ho, app_nil_r. unfold urls. simpl.
    by rewrite (left_id_L ∅ (∪)).
  - cbv zeta. destruct (chunks 4000 fuel (assemble etf (a :: inc))) as [cs|]; [|done].
    intros [= <-]. cbn [send_all set_seen seen_articles seen_file outbox default].
    by rewrite Hf, Ho.
Qed.

Lemma cycle_trace_cons fuel etf q table st :
  cycle_trace api CHAT_ID fuel ((etf, q) :: table) st =
  Delivery etf (get_news api q st).1 (included (seen_articles st) (get_news api q st).1) ::
  match ticker_step api CHAT_ID fuel etf q st with
  | Some st' => cycle_trace api CHAT_ID fuel table st'
  | None => []
  end.
Proof.
  cbn [cycle_trace]. destruct (get_news_frame api q st) as (Hs & _).
  destruct (get_news api q st) as [arts st1]. cbn [fst snd] in *. by rewrite Hs.
Qed.

(** Every iteration filters against the set the former ones left, whether
    the cycle completes or not. *)
Lemma cycle_trace_threaded fuel table st :
  threaded (seen_articles st) (cycle_trace api CHAT_ID fuel table st).
Proof.
  revert st. induction table as [|[etf q] table IH]; intros st; [done|].
  rewrite cycle_trace_cons. split; [done|]. cbn [d_included].
  destruct (ticker_step api CHAT_ID fuel etf q st) as [st1|] eqn:E; [|done].
  apply ticker_step_effect in E as (Hs & _). cbn [d_included] in Hs.
  rewrite <- Hs. apply IH.
Qed.

Lemma ticker_loop_effect fuel table st st' :
  ticker_loop api CHAT_ID fuel table st = Some st' →
  seen_articles st' =
    urls (sent_articles (cycle_trace api CHAT_ID fuel table st)) ∪ seen_articles st ∧
  seen_file st' = seen_file st ∧
  outbox st' =
    outbox st ++ flat_map (ticker_messages CHAT_ID fuel) (cycle_trace api CHAT_ID fuel table st) ∧
  map d_etf (cycle_trace api CHAT_ID fuel table st) = map fst table.
Proof.
  revert st. induction table as [|[etf q] table IH]; intros st.
  - intros [= <-]. cbn. unfold urls. cbn. by rewrite (left_id_L ∅ (∪)), app_nil_r.
  - cbn [ticker_loop]. rewrite cycle_trace_cons.
    destruct (ticker_step api CHAT_ID fuel etf q st) as [st1|] eqn:E; [|done].
    intros H. apply IH in H as (Hs & Hf & Ho & Hm).
    apply ticker_step_effect in E as (Hs1 & Hf1 & Ho1). cbn [d_included] in Hs1.
    unfold sent_articles in *. cbn [flat_map map d_included d_etf fst].
    rewrite urls_app, Hs, Hs1, Hf, Hf1, Ho, Ho1, Hm, <- app_assoc.
    split; [set_solver|done].
Qed.

Lemma send_news_effect fuel m today st st' :
  send_news api CHAT_ID fuel m today st = Some st' →
  seen_articles st' =
    urls (sent_articles (news_trace api CHAT_ID fuel today st)) ∪ seen_articles st ∧
  seen_file st' = Some (file_text (elements (seen_articles st'))) ∧
  outbox st' =
    outbox st ++ header_message CHAT_ID today ::
    flat_map (ticker_messages CHAT_ID fuel) (news_trace api CHAT_ID fuel today st) ∧
  map d_etf (news_trace api CHAT_ID fuel today st) = map fst keywords.
Proof.
  unfold send_news, news_trace. fold (header_message CHAT_ID today).
  destruct (ticker_loop _ _ _ _ _) as [st1|] eqn:E; [|done].
  intros H. apply save_seen_articles_Some in H as [-> _].
  apply ticker_loop_effect in E as (Hs & Hf & Ho & Hm).
  cbn [set_file seen_articles seen_file outbox].
  rewrite Hs, Ho, Hm. cbn [send_message seen_articles outbox].
  by rewrite <- app_assoc.
Qed.

(** What the file holds once a cycle has completed: every URL of the
    Seen-URL Set could be encoded; loading the file finds every URL of the
    set that the text format can hold, and the whole set when all are
    such. *)
Lemma send_news_saved fuel m today st st' :
  send_news api CHAT_ID fuel m today st = Some st' →
  (∀ u, u ∈ seen_articles st' → encodable u = true) ∧
  (∀ u, u ∈ seen_articles st' → storable u = true →
        u ∈ load_seen_articles (seen_file st')) ∧
  ((∀ u, u ∈ seen_articles st' → storable u = true) →
   load_seen_articles (seen_file st') = seen_articles st').
Proof.
  unfold send_news.
  destruct (ticker_loop _ _ _ _ _) as [st1|] eqn:E; [|done].
  intros H. destruct (save_seen_articles_Some _ _ _ H) as [Hst Henc].
  assert (Hseen : seen_articles st' = seen_articles st1) by by rewrite Hst.
  apply saved_file_holds in H as [H1 H2]. rewrite Hseen. done.
Qed.

Lemma news_trace_threaded fuel today st :
  threaded (seen_articles st) (news_trace api CHAT_ID fuel today st).
Proof. apply (cycle_trace_threaded fuel keywords (send_message _ st)). Qed.

End Dispatcher.

(** ** The claims on a dispatch cycle *)

(** C2: when a [/getNews] cycle completes, the messages it sent are the
    header and, ticker by ticker, the chunks of the message assembled from
    the articles let through; none of these articles has a URL that was in
    the Seen-URL Set when the cycle started. *)
Theorem seen_urls_are_not_sent api CHAT_ID fuel m today st st' :
  send_news api CHAT_ID fuel m today st = Some st' →
  outbox st' =
    outbox st ++ header_message CHAT_ID today ::
    flat_map (ticker_messages CHAT_ID fuel) (news_trace api CHAT_ID fuel today st) ∧
  ∀ d a, d ∈ news_trace api CHAT_ID fuel today st → a ∈ d_included d →
         url_key a ∉ seen_articles st.
Proof.
  intros H. apply send_news_effect in H as (_ & _ & Ho & _). split; [done|].
  intros d a Hd Ha.
  by apply (threaded_fresh _ _ d a (news_trace_threaded api CHAT_ID fuel today st)).
Qed.

Lemma seen_urls_are_not_sent_witness :
  outbox fed_done =
    outbox fed_seen ++ header_message me today ::
    flat_map (ticker_messages me 1) (news_trace ok_api me 1 today fed_seen) ∧
  ∀ d a, d ∈ news_trace ok_api me 1 today fed_seen → a ∈ d_included d →
         url_key a ∉ seen_articles fed_seen.
Proof.
  apply (seen_urls_are_not_sent ok_api me 1 ping today fed_seen fed_done).
  apply Some_default. vm_compute. reflexivity.
Defined.





(** ** The claims on the handlers *)

Section Handlers.

Context (api : oracle) (CHAT_ID : option str).

Lemma handle_seen fuel e st st' :
  handle api CHAT_ID fuel e st = Some st' →
  seen_articles st' =
    urls (sent_articles (match ev_command e with
                         | GetNews => news_trace api CHAT_ID fuel (ev_today e) st
                         | Start => []
                         end)) ∪ seen_articles st.
Proof.
  unfold handle. destruct (ev_command e).
  - intros [= <-]. unfold urls. cbn. by rewrite (left_id_L ∅ (∪)).
  - intros H. by apply send_news_effect in H as (Hs & _).
Qed.

Lemma Forall_chat_id (ts : list str) :
  Forall (fun x => chat_id x = CHAT_ID) (map (chunk CHAT_ID) ts).
Proof. induction ts; by constructor. Qed.

Lemma ticker_messages_chat_id fuel (tr : list delivery) :
  Forall (fun x => chat_id x = CHAT_ID) (flat_map (ticker_messages CHAT_ID fuel) tr).
Proof.
  induction tr as [|d tr IH]; [by constructor|]. cbn [flat_map].
  apply Forall_app. split; [|done]. unfold ticker_messages.
  destruct (d_included d); [by constructor|apply Forall_chat_id].
Qed.

End Handlers.

(** C9, as the code has it: no call of [get_news], no step of the article
    loop and no call of a handler takes a URL out of the Seen-URL Set, which
    at startup is what loading the file gives; a [/getNews] cycle that
    completes leaves the set it found together with the URLs of the articles
    it put in a message, has written that set to the file, and loading the
    file then gives every URL of the set that is non-empty, without
    whitespace at either end and without a line break (the whole set when
    all its URLs are such). *)
Theorem seen_set_only_grows api CHAT_ID fuel m today st st' :
  send_news api CHAT_ID fuel m today st = Some st' →
  (∀ file, seen_articles (startup file) = load_seen_articles file) ∧
  (∀ q s, seen_articles (get_news api q s).2 = seen_articles s) ∧
  (∀ v s a, seen_articles s ⊆ seen_articles (article_step (v, s) a).2) ∧
  (∀ f e s s', handle api CHAT_ID f e s = Some s' →
               seen_articles s ⊆ seen_articles s') ∧
  seen_articles st' =
    seen_articles st ∪ urls (sent_articles (news_trace api CHAT_ID fuel today st)) ∧
  (∀ u, u ∈ seen_articles st' → storable u = true →
        u ∈ load_seen_articles (seen_file st')) ∧
  ((∀ u, u ∈ seen_articles st' → storable u = true) →
   load_seen_articles (seen_file st') = seen_articles st').
Proof.
  intros Hnews. split; [done|]. split; [|split; [|split; [|split]]].
  - intros q s. apply get_news_frame.
  - intros v s a. unfold article_step.
    destruct (_ || _); cbn [snd set_seen seen_articles]; set_solver.
  - intros f e s s' H. apply handle_seen in H. rewrite H. set_solver.
  - apply send_news_effect in Hnews as (Hs & _). rewrite Hs. set_solver.
  - by apply send_news_saved in Hnews as (_ & H1 & H2).
Qed.

Lemma seen_set_only_grows_witness :
  (∀ file, seen_articles (startup file) = load_seen_articles file) ∧
  (∀ q s, seen_articles (get_news ok_api q s).2 = seen_articles s) ∧
  (∀ v s a, seen_articles s ⊆ seen_articles (article_step (v, s) a).2) ∧
  (∀ f e s s', handle ok_api me f e s = Some s' →
               seen_articles s ⊆ seen_articles s') ∧
  seen_articles fresh_done =
    seen_articles (startup None) ∪
    urls (sent_articles (news_trace ok_api me 1 today (startup None))) ∧
  (∀ u, u ∈ seen_articles fresh_done → storable u = true →
        u ∈ load_seen_articles (seen_file fresh_done)) ∧
  ((∀ u, u ∈ seen_articles fresh_done → storable u = true) →
   load_seen_articles (seen_file fresh_done) = seen_articles fresh_done).
Proof.
  apply (seen_set_only_grows ok_api me 1 ping today (startup None) fresh_done).
  apply Some_default. vm_compute. reflexivity.
Defined.

(** C9 as stated fails: an article without a [url] key is recorded under
    the empty URL; the cycle completes with the empty URL in the set and
    among the URLs put in a message, the file it writes is one empty line,
    and loading that file gives the empty set. *)
Lemma empty_url_is_not_persisted :
  send_news nameless_api me 1 ping today (startup None) = Some nameless_done ∧
  [] ∈ urls (sent_articles (news_trace nameless_api me 1 today (startup None))) ∧
  [] ∈ seen_articles nameless_done ∧
  seen_file nameless_done = Some [nl] ∧
  load_seen_articles (seen_file nameless_done) = ∅ ∧
  load_seen_articles (seen_file nameless_done) ≠
    load_seen_articles None ∪
    urls (sent_articles (news_trace nameless_api me 1 today (startup None))).
Proof.
  split; [apply Some_default; vm_compute; reflexivity|].
  split; [apply (bool_decide_unpack _); vm_compute; reflexivity|].
  split; [apply (bool_decide_unpack _); vm_compute; reflexivity|].
  split; [vm_compute; reflexivity|].
  split; [vm_compute; reflexivity|].
  apply (bool_decide_unpack _). vm_compute. reflexivity.
Qed.

(** C10: both handlers compute the same result whatever the incoming
    message is, and every message they send goes to [CHAT_ID]. *)
Theorem handlers_ignore_the_incoming_message api CHAT_ID fuel m1 m2 today st st' :
  send_news api CHAT_ID fuel m1 today st = Some st' →
  send_news api CHAT_ID fuel m2 today st = send_news api CHAT_ID fuel m1 today st ∧
  send_welcome CHAT_ID m2 st = send_welcome CHAT_ID m1 st ∧
  (∃ new, outbox st' = outbox st ++ new ∧
          Forall (fun x => chat_id x = CHAT_ID) new) ∧
  (∃ new, outbox (send_welcome CHAT_ID m1 st) = outbox st ++ new ∧
          Forall (fun x => chat_id x = CHAT_ID) new).
Proof.
  intros H. split; [done|]. split; [done|]. split.
  - apply send_news_effect in H as (_ & _ & Ho & _). eexists. split; [exact Ho|].
    constructor; [done|]. apply ticker_messages_chat_id.
  - eexists. split; [done|]. by repeat constructor.
Qed.

Lemma handlers_ignore_the_incoming_message_witness :
  send_news ok_api me 1 other_ping today fed_seen = send_news ok_api me 1 ping today fed_seen ∧
  send_welcome me other_ping fed_seen = send_welcome me ping fed_seen ∧
  (∃ new, outbox fed_done = outbox fed_seen ++ new ∧
          Forall (fun x => chat_id x = me) new) ∧
  (∃ new, outbox (send_welcome me ping fed_seen) = outbox fed_seen ++ new ∧
          Forall (fun x => chat_id x = me) new).
Proof.
  apply (handlers_ignore_the_incoming_message ok_api me 1 ping other_ping today
           fed_seen fed_done).
  apply Some_default. vm_compute. reflexivity.
Defined.

(** * Further properties of the code *)

(** ** The text formatter *)

Section Formatter.

Lemma escape_markdown_v2_flat_map (text : option str) :
  escape_markdown_v2 text =
  flat_map (fun c => if bool_decide (c ∈ backslash :: reserved_set)
                     then [backslash; c] else [c])
           (default [] text).
Proof.
  destruct text as [[|c t]|]; try done.
  unfold escape_markdown_v2, Re.sub_class_backslash.
  apply flat_map_ext_bool. intros x.
  apply bool_decide_ext, class_members_escape_chars.
Qed.

Lemma backslash_reserved : bool_decide (backslash ∈ backslash :: reserved_set) = true.
Proof. apply bool_decide_eq_true. by left. Qed.

(** X1: the text [escape_markdown_v2] returns is valid for the dialect:
    every reserved character and every backslash of it is escaped; and it
    has at least the length of the input and at most twice that. *)
Theorem escape_markdown_v2_well_escaped (text : option str) :
  well_escaped (escape_markdown_v2 text) = true ∧
  length (default [] text) ≤ length (escape_markdown_v2 text) ≤ 2 * length (default [] text).
Proof.
  rewrite escape_markdown_v2_flat_map. generalize (default [] text). clear text.
  intros t. induction t as [|c t [IH1 IH2]]; [done|]. cbn [flat_map].
  case_bool_decide as Hc.
  - split; [|cbn [app length]; lia].
    cbn [app well_escaped]. by rewrite N.eqb_refl.
  - split; [|cbn [app length]; lia].
    cbn [app well_escaped]. destruct (N.eqb_spec c backslash) as [->|_].
    + exfalso. apply Hc. by left.
    + rewrite IH1. by rewrite (bool_decide_eq_false_2 _ Hc).
Qed.

(** X2: escaping loses nothing: reading the escaped text back gives the
    input, so two different texts never escape to the same text. *)
Theorem unescape_escape_markdown_v2 (t : str) :
  unescape (escape_markdown_v2 (Some t)) = t.
Proof.
  rewrite escape_markdown_v2_flat_map. change (default [] (Some t)) with t.
  induction t as [|c t IH]; [done|]. cbn [flat_map].
  case_bool_decide as Hc.
  - cbn [app unescape]. by rewrite N.eqb_refl, IH.
  - cbn [app unescape]. destruct (N.eqb_spec c backslash) as [->|_].
    + exfalso. apply Hc. by left.
    + by rewrite IH.
Qed.

Lemma elem_of_flat_map {A B} (f : A → list B) (l : list A) (y : B) :
  y ∈ flat_map f l ↔ ∃ x, x ∈ l ∧ y ∈ f x.
Proof.
  rewrite list_elem_of_In, in_flat_map. by setoid_rewrite list_elem_of_In.
Qed.

(** X3: the URL [escape_url] returns has no closing parenthesis, so it
    cannot end the link it is put in; a URL without one is returned as it
    is, and escaping twice is escaping once. *)
Theorem escape_url_no_paren (u : str) :
  bool_decide (41%N ∈ escape_url u) = false ∧
  (41%N ∉ u → escape_url u = u) ∧
  escape_url (escape_url u) = escape_url u.
Proof.
  assert (H1 : 41%N ∉ escape_url u).
  { unfold escape_url. intros H. apply elem_of_flat_map in H as (c & _ & Hc).
    destruct (decide (c = 41%N)) as [Heq|Hne].
    - subst c. revert Hc. apply (bool_decide_eq_false_1 _). by vm_compute.
    - apply N.eqb_neq in Hne as Hb. rewrite Hb in Hc.
      apply list_elem_of_singleton in Hc. congruence. }
  assert (H2 : ∀ v : str, 41%N ∉ v → escape_url v = v).
  { intros v. induction v as [|c v IH]; [done|]. intros H.
    apply not_elem_of_cons in H as [Hc Hv]. unfold escape_url in *. cbn [flat_map].
    destruct (N.eqb_spec c 41) as [->|_]; [done|]. by rewrite IH. }
  split; [by apply bool_decide_eq_false|]. split; [apply H2|by apply H2].
Qed.

Lemma sub_tags_sublist (skip : nat) (t : str) : Re.sub_tags skip t `sublist_of` t.
Proof.
  revert skip. induction t as [|c t IH]; intros skip; [done|]. cbn [Re.sub_tags].
  destruct skip as [|k]; [|by apply sublist_cons].
  destruct (c =? 60)%N; [|by apply sublist_skip].
  destruct (Re.tag_length t); [by apply sublist_cons|by apply sublist_skip].
Qed.

(** X4: [strip_html_tags] only deletes: what it returns is the input with
    some characters left out, in the same order; a text without [<] comes
    back unchanged, and [None] gives the empty string. *)
Theorem strip_html_tags_only_deletes (t : str) :
  strip_html_tags (Some t) `sublist_of` t ∧
  (60%N ∉ t → strip_html_tags (Some t) = t) ∧
  strip_html_tags None = [].
Proof.
  split; [apply sub_tags_sublist|]. split; [|done].
  unfold strip_html_tags. change (default [] (Some t)) with t.
  induction t as [|c t IH]; [done|]. intros H.
  apply not_elem_of_cons in H as [Hc Ht]. cbn [Re.sub_tags]. destruct (N.eqb_spec c 60) as [->|_]; [done|]. by rewrite IH.
Qed.

End Formatter.

(** ** Stripping *)

Section Stripping.

Lemma lstrip_idemp (s : str) : lstrip (lstrip s) = lstrip s.
Proof.
  induction s as [|c s IH]; [done|]. cbn [lstrip].
  destruct (isspace c) eqn:E; [done|]. cbn [lstrip]. by rewrite E.
Qed.

Lemma lstrip_snoc (l : str) (c : char) :
  lstrip (l ++ [c]) =
  match lstrip l with
  | [] => if isspace c then [] else [c]
  | r => r ++ [c]
  end.
Proof.
  induction l as [|x l IH]; [done|]. cbn [app lstrip].
  by destruct (isspace x).
Qed.

Lemma rstrip_cons (c : char) (t : str) :
  rstrip (c :: t) =
  match rstrip t with
  | [] => if isspace c then [] else [c]
  | r => c :: r
  end.
Proof.
  unfold rstrip. rewrite reverse_cons, lstrip_snoc.
  destruct (lstrip (reverse t)) as [|x r] eqn:E.
  - by destruct (isspace c).
  - rewrite reverse_app. change (reverse [c]) with [c]. cbn [app].
    destruct (reverse (x :: r)) eqn:E2; [|done].
    apply (f_equal length) in E2. by rewrite length_reverse in E2.
Qed.

Lemma rstrip_idemp (s : str) : rstrip (rstrip s) = rstrip s.
Proof. unfold rstrip. by rewrite reverse_involutive, lstrip_idemp. Qed.

Lemma rstrip_lstrip (s : str) : rstrip (lstrip s) = lstrip (rstrip s).
Proof.
  induction s as [|c s IH]; [done|]. cbn [lstrip]. rewrite rstrip_cons.
  destruct (isspace c) eqn:E.
  - rewrite IH. destruct (rstrip s) as [|x r]; [done|]. cbn [lstrip]. by rewrite E.
  - rewrite rstrip_cons. destruct (rstrip s); rewrite ?E; cbn [lstrip]; by rewrite E.
Qed.

Lemma strip_idemp (s : str) : strip (strip s) = strip s.
Proof.
  unfold strip. by rewrite rstrip_lstrip, rstrip_idemp, lstrip_idemp.
Qed.

Lemma lstrip_elem (c : char) (s : str) : c ∈ lstrip s → c ∈ s.
Proof.
  induction s as [|x s IH]; [done|]. cbn [lstrip].
  destruct (isspace x); [|done]. intros H. right. by apply IH.
Qed.

Lemma strip_elem (c : char) (s : str) : c ∈ strip s → c ∈ s.
Proof.
  unfold strip, rstrip. intros H. apply lstrip_elem in H.
  rewrite elem_of_reverse in H. apply lstrip_elem in H.
  by rewrite elem_of_reverse in H.
Qed.


End Stripping.

(** ** The deduplication store, further *)

Section Store.

Lemma universal_newlines_no_cr (s : str) : cr ∉ universal_newlines s.
Proof.
  assert (H : ∀ n (t : str), length t ≤ n → cr ∉ universal_newlines t).
  { intros n. induction n as [|n IH]; intros [|c t] Hlen;
      try apply not_elem_of_nil; simpl in Hlen; [lia|].
    cbn [universal_newlines]. destruct (N.eqb_spec c cr) as [->|Hc].
    - destruct t as [|d t].
      + apply not_elem_of_cons. split; [done|apply not_elem_of_nil].
      + destruct (d =? nl)%N; apply not_elem_of_cons; (split; [done|]);
          apply IH; simpl in *; lia.
    - apply not_elem_of_cons. split; [congruence|]. apply IH. lia. }
  by apply (H (length s)).
Qed.

Lemma concat_readlines (s : str) : concat (readlines s) = s.
Proof.
  induction s as [|c s IH]; [done|]. cbn [readlines].
  destruct (c =? nl)%N; [cbn; by rewrite IH|].
  destruct (readlines s) as [|l ls]; cbn in *; by rewrite <- IH.
Qed.

Lemma elem_of_concat {A} (x : A) (l : list A) (ls : list (list A)) :
  x ∈ l → l ∈ ls → x ∈ concat ls.
Proof.
  intros Hx. induction ls as [|l0 ls IH]; [by intros ?%elem_of_nil|].
  intros H. cbn [concat]. apply elem_of_app.
  apply elem_of_cons in H as [->|H]; [by left|right; by apply IH].
Qed.

(** A line of [readlines] has no newline but, possibly, its last character. *)
Lemma readlines_line_shape (s : str) (line : str) :
  line ∈ readlines s → ∃ body, (line = body ++ [nl] ∨ line = body) ∧ nl ∉ body.
Proof.
  revert line. induction s as [|c s IH]; intros line; cbn [readlines];
    [by intros ?%elem_of_nil|].
  destruct (N.eqb_spec c nl) as [->|Hc].
  - intros [->|H]%elem_of_cons; [|by apply IH].
    exists []. split; [by left|apply not_elem_of_nil].
  - destruct (readlines s) as [|l ls].
    + intros ->%list_elem_of_singleton. exists [c]. split; [by right|].
      apply not_elem_of_cons. split; [congruence|apply not_elem_of_nil].
    + intros [->|H]%elem_of_cons.
      * destruct (IH l) as (body & Hb & Hn); [by left|].
        exists (c :: body). split; [destruct Hb as [->| ->]; [by left|by right]|].
        apply not_elem_of_cons. split; [congruence|done].
      * apply IH. by right.
Qed.

Lemma loaded_storable (content u : str) :
  u ∈ omap url_of_line (readlines (universal_newlines content)) → storable u = true.
Proof.
  intros H. apply list_elem_of_omap in H as (line & Hline & Hu).
  unfold url_of_line in Hu.
  assert (Hs : strip line = u ∧ u ≠ []).
  { destruct (strip line) as [|x r]; [done|]. by inversion Hu. }
  destruct Hs as [<- Hne].
  destruct (readlines_line_shape _ _ Hline) as (body & Hb & Hn).
  assert (Hsb : strip line = strip body).
  { destruct Hb as [->| ->]; [|done]. unfold strip. by rewrite rstrip_snoc_space. }
  unfold storable. rewrite !andb_true_iff, !negb_true_iff. repeat split.
  - by apply bool_decide_eq_false.
  - apply bool_decide_eq_true, strip_idemp.
  - apply bool_decide_eq_false. rewrite Hsb. intros H. by apply strip_elem in H.
  - apply bool_decide_eq_false. intros H. apply strip_elem in H.
    apply (universal_newlines_no_cr content).
    rewrite <- (concat_readlines (universal_newlines content)).
    by apply (elem_of_concat _ line).
Qed.

Lemma loaded_storable_all (file : option str) :
  Forall (fun u => storable u = true) (elements (load_seen_articles file)).
Proof.
  apply list.Forall_forall. intros u Hu. apply elem_of_elements in Hu.
  destruct file as [content|]; [|by apply elem_of_empty in Hu].
  cbn [load_seen_articles] in Hu. apply elem_of_list_to_set in Hu.
  by apply (loaded_storable content).
Qed.

Lemma universal_newlines_elem (c : char) (s : str) :
  c ∈ universal_newlines s → c ∈ s ∨ c = nl.
Proof.
  assert (H : ∀ n (t : str), length t ≤ n → c ∈ universal_newlines t → c ∈ t ∨ c = nl).
  { intros n. induction n as [|n IH]; intros [|x t] Hlen; cbn [universal_newlines];
      try (by intros ?%elem_of_nil); [simpl in Hlen; lia|].
    simpl in Hlen. destruct (x =? cr)%N.
    - destruct t as [|d t]; [intros ->%list_elem_of_singleton; by right|].
      simpl in Hlen. destruct (d =? nl)%N.
      + intros [->|H]%elem_of_cons; [by right|].
        destruct (IH t ltac:(lia) H) as [?|?]; [left|by right].
        by do 2 apply list_elem_of_further.
      + intros [->|H]%elem_of_cons; [by right|].
        destruct (IH (d :: t) ltac:(simpl; lia) H) as [?|?]; [left|by right].
        by apply list_elem_of_further.
    - intros [->|H]%elem_of_cons; [left; apply list_elem_of_here|].
      destruct (IH t ltac:(lia) H) as [?|?]; [left|by right].
      by apply list_elem_of_further. }
  by apply (H (length s)).
Qed.

Lemma encodable_forall (u : str) :
  encodable u = true ↔ ∀ c, c ∈ u → ((c <? 55296)%N || (57343 <? c)%N) = true.
Proof.
  unfold encodable. rewrite forallb_forall. split; intros H c Hc; apply H.
  - by apply list_elem_of_In.
  - by apply list_elem_of_In.
Qed.

(** A set loaded from a text without surrogates has none in its URLs. *)
Lemma loaded_encodable (content u : str) :
  encodable content = true →
  u ∈ omap url_of_line (readlines (universal_newlines content)) → encodable u = true.
Proof.
  intros Hc H. apply list_elem_of_omap in H as (line & Hline & Hu).
  apply encodable_forall. intros c Hin.
  assert (Hs : strip line = u).
  { unfold url_of_line in Hu. destruct (strip line) as [|x r]; [done|]. by inversion Hu. }
  rewrite <- Hs in Hin. apply strip_elem in Hin.
  assert (Hcu : c ∈ universal_newlines content).
  { rewrite <- (concat_readlines (universal_newlines content)).
    by apply (elem_of_concat _ line). }
  apply universal_newlines_elem in Hcu as [Hcu| ->]; [|done].
  rewrite encodable_forall in Hc. by apply Hc.
Qed.

End Store.

(** X5: every URL [load_seen_articles] returns is non-empty, has no
    whitespace at either end and no line break inside, whatever the file
    holds. *)
Theorem loaded_urls_are_storable (file : option str) :
  Forall (fun u => storable u = true) (elements (load_seen_articles file)).
Proof. apply loaded_storable_all. Qed.

(** X6: what was loaded survives a save: when saving the set loaded from a
    file completes, loading again gives the same set; and the save
    completes whenever the text of the file has no surrogate, as any text
    decoded from UTF-8. *)
Theorem load_save_load (file : option str) (st : state) :
  (∀ st', save_seen_articles (load_seen_articles file) st = Some st' →
          load_seen_articles (seen_file st') = load_seen_articles file) ∧
  (encodable (default [] file) = true →
   ∃ st', save_seen_articles (load_seen_articles file) st = Some st' ∧
          load_seen_articles (seen_file st') = load_seen_articles file).
Proof.
  assert (Hback : ∀ st', save_seen_articles (load_seen_articles file) st = Some st' →
            load_seen_articles (seen_file st') = load_seen_articles file).
  { intros st' H. apply saved_file_holds in H as [_ H]. apply H.
    intros u Hu. pose proof (loaded_storable_all file) as Hall.
    rewrite list.Forall_forall in Hall. apply Hall, elem_of_elements, Hu. }
  split; [done|]. intros Henc.
  exists (set_file (Some (file_text (elements (load_seen_articles file)))) st).
  assert (Hsave : save_seen_articles (load_seen_articles file) st =
            Some (set_file (Some (file_text (elements (load_seen_articles file)))) st)).
  { apply save_seen_articles_encodable. intros u Hu.
    destruct file as [content|]; [|by apply elem_of_empty in Hu].
    cbn [load_seen_articles] in Hu. apply elem_of_list_to_set in Hu.
    by apply (loaded_encodable content). }
  split; [done|]. by apply Hback.
Qed.

Lemma universal_newlines_crlf (l : list str) :
  Forall (fun u => storable u = true) l →
  universal_newlines (flat_map (fun u => u ++ [cr; nl]) l) =
  universal_newlines (file_text l).
Proof.
  induction 1 as [|u l Hu _ IH]; [done|].
  destruct (storable_inv _ Hu) as (_ & _ & _ & Hcr).
  change (file_text (u :: l)) with ((u ++ [nl]) ++ file_text l).
  cbn [flat_map]. rewrite <- !app_assoc. cbn [app].
  rewrite !universal_newlines_app by done.
  change (universal_newlines (cr :: nl :: ?x)) with (nl :: universal_newlines x).
  change (universal_newlines (nl :: ?x)) with (nl :: universal_newlines x).
  by rewrite IH.
Qed.

(** X7: a file with Windows line ends loads like one with Unix line ends:
    for URLs the format can hold, one URL per line ended by [\r\n] gives the
    set of these URLs. *)
Theorem load_crlf_file (l : list str) :
  Forall (fun u => storable u = true) l →
  load_seen_articles (Some (flat_map (fun u => u ++ [cr; nl]) l)) = list_to_set l.
Proof.
  intros H. cbn [load_seen_articles].
  by rewrite universal_newlines_crlf, read_file_text.
Qed.

Lemma load_crlf_file_witness :
  load_seen_articles
    (Some (flat_map (fun u => u ++ [cr; nl])
                    [lit "https://example.org/a"; lit "https://example.org/b"])) =
  list_to_set [lit "https://example.org/a"; lit "https://example.org/b"].
Proof.
  apply (load_crlf_file [lit "https://example.org/a"; lit "https://example.org/b"]).
  apply (bool_decide_unpack _). vm_compute. reflexivity.
Defined.

(** ** The dispatcher, further *)

Section Filter.

Lemma included_urls (S : gset str) (l : list article) :
  urls (included S l) = urls l ∖ S.
Proof.
  revert S. induction l as [|b l IH]; intros S; cbn [included].
  - unfold urls. cbn. set_solver.
  - case_bool_decide as Hin; rewrite !urls_cons, ?IH; apply set_eq; intros x;
      destruct (decide (x = url_key b)) as [->|Hne]; set_solver.
Qed.



Lemma included_nil (S : gset str) (l : list article) :
  urls l ⊆ S → included S l = [].
Proof.
  revert S. induction l as [|b l IH]; intros S; [done|]. rewrite urls_cons.
  intros H. cbn [included]. rewrite bool_decide_eq_true_2 by set_solver.
  apply IH. set_solver.
Qed.


Lemma threaded_fetched_urls (S : gset str) (tr : list delivery) :
  threaded S tr →
  urls (sent_articles tr) ∪ S = urls (flat_map d_fetched tr) ∪ S.
Proof.
  revert S. induction tr as [|d tr IH]; intros S; [done|].
  intros [Hinc Ht]. unfold sent_articles in *. cbn [flat_map].
  rewrite !urls_app. apply IH in Ht. rewrite Hinc, included_urls in *.
  apply set_eq. intros x. destruct (decide (x ∈ S)); set_solver.
Qed.

End Filter.



(** X10: a cycle that completes leaves in the Seen-URL Set the former set
    and the URL of every article fetched in the cycle, whether the article
    went out or was dropped as a duplicate. *)
Theorem fetched_urls_are_marked_seen api CHAT_ID fuel m today st st' :
  send_news api CHAT_ID fuel m today st = Some st' →
  seen_articles st' =
    urls (flat_map d_fetched (news_trace api CHAT_ID fuel today st)) ∪ seen_articles st.
Proof.
  intros H. apply send_news_effect in H as (Hs & _). rewrite Hs.
  apply threaded_fetched_urls, news_trace_threaded.
Qed.

Lemma fetched_urls_are_marked_seen_witness :
  seen_articles fed_done =
    urls (flat_map d_fetched (news_trace ok_api me 1 today fed_seen)) ∪ seen_articles fed_seen.
Proof.
  apply (fetched_urls_are_marked_seen ok_api me 1 ping today fed_seen fed_done).
  apply Some_default. vm_compute. reflexivity.
Defined.

(** X11: a ticker whose fetched list is empty or holds only URLs that are
    already in the Seen-URL Set sends nothing, not even its heading, and
    leaves the set as it is: the state is the one [get_news] left. *)
Theorem stale_ticker_sends_nothing api CHAT_ID fuel etf q st :
  urls (get_news api q st).1 ⊆ seen_articles st →
  ticker_step api CHAT_ID fuel etf q st = Some (get_news api q st).2.
Proof.
  intros H. rewrite ticker_step_eq. destruct (get_news_frame api q st) as (Hs & _).
  by rewrite Hs, included_nil.
Qed.

Lemma stale_ticker_sends_nothing_witness :
  ticker_step ok_api me 0 (lit "GLD") gold fed_seen = Some (get_news ok_api gold fed_seen).2.
Proof.
  apply (stale_ticker_sends_nothing ok_api me 0 (lit "GLD") gold fed_seen).
  apply (bool_decide_unpack _). vm_compute. reflexivity.
Defined.

(** ** The query cache, further *)

Section Cache.

Context (api : oracle) (CHAT_ID : option str).

Lemma get_news_cache_kept q st q' a :
  news_cache st !! q' = Some a → news_cache (get_news api q st).2 !! q' = Some a.
Proof.
  intros H. unfold get_news. destruct (news_cache st !! q) as [arts|] eqn:Hc; [done|].
  destruct (status_code _ =? 200); [|done]. cbn.
  rewrite lookup_insert_ne; [done|]. intros ->. congruence.
Qed.

Lemma get_news_cache_new q st q' a :
  news_cache (get_news api q st).2 !! q' = Some a →
  news_cache st !! q' = Some a ∨ q' = q ∧ a = (get_news api q st).1.
Proof.
  unfold get_news. destruct (news_cache st !! q) as [arts|] eqn:Hc; [by left|].
  destruct (status_code _ =? 200); [|by left]. cbn.
  destruct (decide (q = q')) as [->|Hne].
  - rewrite lookup_insert_eq. intros [= <-]. by right.
  - rewrite lookup_insert_ne by done. by left.
Qed.

Lemma get_news_requests q st :
  requests (get_news api q st).2 =
  requests st ++ match news_cache st !! q with Some _ => [] | None => [q] end.
Proof.
  unfold get_news. destruct (news_cache st !! q); [by rewrite app_nil_r|].
  by destruct (status_code _ =? 200).
Qed.

(** What an iteration of the ticker loop does to the cache and to the log
    of requests is what its call of [get_news] does. *)
Lemma ticker_step_net fuel etf q st st' :
  ticker_step api CHAT_ID fuel etf q st = Some st' →
  news_cache st' = news_cache (get_news api q st).2 ∧
  requests st' = requests (get_news api q st).2.
Proof.
  rewrite ticker_step_eq. destruct (included _ _); [by intros [= <-]|]. cbv zeta.
  destruct (chunks _ _ _); [|done]. by intros [= <-].
Qed.

Lemma ticker_loop_cache_kept fuel table st st' q a :
  ticker_loop api CHAT_ID fuel table st = Some st' →
  news_cache st !! q = Some a → news_cache st' !! q = Some a.
Proof.
  revert st. induction table as [|[etf q0] table IH]; intros st; cbn [ticker_loop].
  - by intros [= <-].
  - destruct (ticker_step api CHAT_ID fuel etf q0 st) as [st1|] eqn:E; [|done].
    intros H Hq. apply (IH st1 H). apply ticker_step_net in E as [-> _].
    by apply get_news_cache_kept.
Qed.

Lemma handle_cache_kept fuel e st st' q a :
  handle api CHAT_ID fuel e st = Some st' →
  news_cache st !! q = Some a → news_cache st' !! q = Some a.
Proof.
  unfold handle, send_news. destruct (ev_command e).
  - by intros [= <-].
  - destruct (ticker_loop _ _ _ _ _) as [st1|] eqn:E; [|done]. intros H Hq.
    apply save_seen_articles_Some in H as [-> _].
    cbn. by apply (ticker_loop_cache_kept _ _ _ _ _ _ E).
Qed.

Lemma ticker_loop_requests fuel table st st' :
  ticker_loop api CHAT_ID fuel table st = Some st' →
  ∃ qs, requests st' = requests st ++ qs ∧ qs `sublist_of` map snd table.
Proof.
  revert st. induction table as [|[etf q] table IH]; intros st; cbn [ticker_loop].
  - intros [= <-]. exists []. by rewrite app_nil_r.
  - destruct (ticker_step api CHAT_ID fuel etf q st) as [st1|] eqn:E; [|done].
    intros H. apply IH in H as (qs & Hr & Hs).
    apply ticker_step_net in E as [_ Hr1]. rewrite get_news_requests in Hr1.
    rewrite Hr, Hr1, <- app_assoc. eexists. split; [done|]. cbn [map snd].
    destruct (news_cache st !! q); [by apply sublist_cons|by apply sublist_skip].
Qed.

Lemma ticker_step_cache_seen fuel etf q st st' :
  ticker_step api CHAT_ID fuel etf q st = Some st' → cache_seen st → cache_seen st'.
Proof.
  intros E Inv q' a. pose proof E as [Hc _]%ticker_step_net.
  apply ticker_step_effect in E as (Hs & _). cbn [d_included] in Hs.
  rewrite Hc, Hs, included_urls. intros [Hold|[-> ->]]%get_news_cache_new.
  - apply Inv in Hold. set_solver.
  - intros x Hx. destruct (decide (x ∈ seen_articles st)); set_solver.
Qed.

Lemma ticker_loop_cache_seen fuel table st st' :
  ticker_loop api CHAT_ID fuel table st = Some st' → cache_seen st → cache_seen st'.
Proof.
  revert st. induction table as [|[etf q] table IH]; intros st; cbn [ticker_loop].
  - by intros [= <-].
  - destruct (ticker_step api CHAT_ID fuel etf q st) as [st1|] eqn:E; [|done].
    intros H Inv. apply (IH st1 H). by eapply ticker_step_cache_seen.
Qed.

Lemma cache_seen_startup file : cache_seen (startup file).
Proof. intros q a Hq. cbn in Hq. by rewrite lookup_empty in Hq. Qed.

Lemma handle_cache_seen fuel e st st' :
  handle api CHAT_ID fuel e st = Some st' → cache_seen st → cache_seen st'.
Proof.
  unfold handle, send_news.
  destruct (ev_command e); [by intros [= <-]|].
  destruct (ticker_loop _ _ _ _ _) as [st2|] eqn:E2; [|done]. intros H Inv.
  apply save_seen_articles_Some in H as [-> _].
  by apply (ticker_loop_cache_seen _ _ _ _ E2).
Qed.

(** With every query of the table cached and every cached URL seen, the
    ticker loop changes nothing. *)
Lemma ticker_loop_quiet fuel table st :
  cache_seen st →
  Forall (fun q => is_Some (news_cache st !! q)) (map snd table) →
  ticker_loop api CHAT_ID fuel table st = Some st.
Proof.
  intros Inv. induction table as [|[etf q] table IH]; [done|]. cbn [map snd].
  intros [[a Ha] Hrest]%list.Forall_cons. cbn [ticker_loop].
  rewrite ticker_step_eq, (get_news_hit api q st a Ha). cbn [fst snd].
  rewrite included_nil by by apply (Inv q). by apply IH.
Qed.

End Cache.

(** X12: a call of a handler that completes, like a call of [get_news],
    neither drops nor changes a cache entry: an article list that was
    cached for a query when the call started is cached for it when the
    call ends. *)
Theorem cache_entries_are_kept api CHAT_ID fuel e st st' q a :
  handle api CHAT_ID fuel e st = Some st' →
  news_cache st !! q = Some a →
  news_cache st' !! q = Some a ∧
  ∀ q0, news_cache (get_news api q0 st).2 !! q = Some a.
Proof.
  intros H Hq. split; [by apply (handle_cache_kept _ _ _ _ _ _ _ _ H)|].
  intros q0. by apply get_news_cache_kept.
Qed.

Lemma cache_entries_are_kept_witness :
  news_cache down_then_done !! gold = Some [story] ∧
  ∀ q0, news_cache (get_news down_api q0 fetched_state).2 !! gold = Some [story].
Proof.
  apply (cache_entries_are_kept down_api me 1 news_event
           fetched_state down_then_done gold [story]).
  - apply Some_default. vm_compute. reflexivity.
  - vm_compute. reflexivity.
Defined.

(** X13: a [/getNews] call that finds every query of the ticker table
    cached and the URL of every cached article in the Seen-URL Set makes no
    request and sends the header alone: it is the header followed by the
    save of the set as it was.  The URLs of the cached articles are all in
    the set at startup, and a handler call that completes keeps it so. *)
Theorem cached_tickers_stay_silent api CHAT_ID fuel m today st :
  cache_seen st →
  Forall (fun q => is_Some (news_cache st !! q)) (map snd keywords) →
  send_news api CHAT_ID fuel m today st =
    save_seen_articles (seen_articles st)
      (send_message (header_message CHAT_ID today) st) ∧
  (∀ file, cache_seen (startup file)) ∧
  (∀ f e s s', handle api CHAT_ID f e s = Some s' → cache_seen s → cache_seen s').
Proof.
  intros Hseen Hall. split; [|split].
  - unfold send_news. fold (header_message CHAT_ID today).
    by rewrite ticker_loop_quiet.
  - apply cache_seen_startup.
  - intros f e s s'. apply handle_cache_seen.
Qed.

Lemma cached_tickers_stay_silent_witness :
  send_news ok_api me 0 other_ping today fetched_state =
    save_seen_articles (seen_articles fetched_state)
      (send_message (header_message me today) fetched_state) ∧
  (∀ file, cache_seen (startup file)) ∧
  (∀ f e s s', handle ok_api me f e s = Some s' → cache_seen s → cache_seen s').
Proof.
  apply (cached_tickers_stay_silent ok_api me 0 other_ping today fetched_state).
  - apply (handle_cache_seen ok_api me 1 news_event (startup None)).
    + apply Some_default. vm_compute. reflexivity.
    + apply cache_seen_startup.
  - apply (bool_decide_unpack _). vm_compute. reflexivity.
Defined.

(** X14: a cycle that completes has made at most one request for each
    ticker, in the order of the table: the requests it added to the log are
    queries of the table, each at most once, in table order. *)
Theorem cycle_requests_follow_the_table api CHAT_ID fuel m today st st' :
  send_news api CHAT_ID fuel m today st = Some st' →
  ∃ qs, requests st' = requests st ++ qs ∧ qs `sublist_of` map snd keywords.
Proof.
  unfold send_news. destruct (ticker_loop _ _ _ _ _) as [st1|] eqn:E; [|done].
  intros H. apply save_seen_articles_Some in H as [-> _].
  by apply ticker_loop_requests in E.
Qed.

Lemma cycle_requests_follow_the_table_witness :
  ∃ qs, requests fed_done = requests fed_seen ++ qs ∧ qs `sublist_of` map snd keywords.
Proof.
  apply (cycle_requests_follow_the_table ok_api me 1 ping today fed_seen fed_done).
  apply Some_default. vm_compute. reflexivity.
Defined.

(** X15: an answer with status 200 whose body has no [articles] key counts
    as an empty result and is cached like any other: the call returns the
    empty list, and the next call with the query returns it again without a
    request. *)
Theorem missing_articles_key_is_cached api q st :
  news_cache st !! q = None →
  status_code (api (length (requests st)) q) = 200 →
  json_articles (api (length (requests st)) q) = None →
  let st1 := set_cache (<[q := []]> (news_cache st)) (http_get q st) in
  get_news api q st = ([], st1) ∧ get_news api q st1 = ([], st1).
Proof.
  intros Hc Hs Hj st1. split.
  - rewrite get_news_ok by done. by rewrite Hj.
  - apply get_news_hit. cbn. apply lookup_insert_eq.
Qed.

Lemma missing_articles_key_is_cached_witness :
  let st1 := set_cache (<[gold := []]> (news_cache (startup None)))
                       (http_get gold (startup None)) in
  get_news bare_api gold (startup None) = ([], st1) ∧
  get_news bare_api gold st1 = ([], st1).
Proof.
  apply (missing_articles_key_is_cached bare_api gold (startup None)); reflexivity.
Defined.

(** ** The splitting loop, further *)

Section Cuts.

Lemma split_chunks_remaining (limit fuel : nat) (msg : str) cs rest :
  split_chunks limit fuel msg = Some (cs, rest) → rest = remaining limit fuel msg.
Proof.
  revert msg cs rest. induction fuel as [|fuel IH]; intros msg cs rest;
    cbn [split_chunks remaining]; destruct (limit <? length msg); try done.
  - by intros [= _ <-].
  - destruct (split_chunks limit fuel _) as [[cs' rest']|] eqn:E; [|done].
    intros [= _ <-]. by eapply IH.
  - by intros [= _ <-].
Qed.

Lemma split_step_at_newline (limit : nat) (m : str) :
  nl ∈ take limit m →
  ∃ k, k < limit ∧ m !! k = Some nl ∧
       split_step limit m = (strip (take k m), drop k m).
Proof.
  intros H. apply list_elem_of_lookup in H as [i Hi].
  assert (Hlt : i < limit).
  { apply lookup_lt_Some in Hi. rewrite length_take in Hi. lia. }
  rewrite lookup_take_lt in Hi by done.
  destruct (rfind_found nl m limit i Hi Hlt) as (k & Hr & Hk & Hnl).
  exists k. split; [lia|]. split; [done|].
  unfold split_step, slice_to, slice_from. by rewrite Hr, bound_nat.
Qed.

Lemma remaining_has_newline (limit n : nat) (m : str) :
  0 < limit → nl ∈ take limit m → nl ∈ take limit (remaining limit n m).
Proof.
  intros Hpos. revert m. induction n as [|n IH]; intros m Hm; cbn [remaining]; [done|].
  destruct (Nat.ltb_spec limit (length m)) as [Hlen|_]; [|done].
  destruct (split_step_at_newline limit m Hm) as (k & Hk & Hnl & ->). cbn [snd].
  apply IH. apply list_elem_of_lookup. exists 0.
  rewrite lookup_take_lt by done. by rewrite lookup_drop, Nat.add_0_r.
Qed.

Lemma escape_markdown_v2_length (t : str) :
  length (escape_markdown_v2 (Some t)) ≤ 2 * length t.
Proof.
  rewrite escape_markdown_v2_flat_map. change (default [] (Some t)) with t.
  induction t as [|c t IH]; [done|]. cbn [flat_map].
  case_bool_decide; cbn [app length]; lia.
Qed.

Lemma assemble_has_newline (etf : str) (inc : list article) :
  length etf < 1999 → nl ∈ take 4000 (assemble etf inc).
Proof.
  intros Hlen. pose proof (escape_markdown_v2_length etf) as Hle.
  set (E := escape_markdown_v2 (Some etf)) in *.
  assert (H1 : length (lit "*") = 1) by done.
  assert (Hi : length (lit "*" ++ E ++ lit "*") < 4000).
  { rewrite !length_app, H1. lia. }
  apply list_elem_of_lookup. exists (length (lit "*" ++ E ++ lit "*")).
  rewrite lookup_take_lt by done.
  replace (assemble etf inc)
    with ((lit "*" ++ E ++ lit "*") ++ nl :: flat_map article_block inc)
    by (unfold assemble; fold E; by rewrite <- !app_assoc).
  by apply list_lookup_middle.
Qed.

End Cuts.

(** X16: whatever the articles, the loop never cuts the message of a ticker
    inside a line and never sends more than 3999 characters at once: at
    every iteration, also of a loop that does not end, the cut is at a
    newline before position 4000, the text sent is the stripped part before
    it and the message kept starts at that newline. *)
Theorem every_cut_is_at_a_newline (etf : str) (inc : list article) (n : nat) :
  length etf < 1999 →
  4000 < length (remaining 4000 n (assemble etf inc)) →
  ∃ k, k < 4000 ∧
       remaining 4000 n (assemble etf inc) !! k = Some nl ∧
       split_step 4000 (remaining 4000 n (assemble etf inc)) =
         (strip (take k (remaining 4000 n (assemble etf inc))),
          drop k (remaining 4000 n (assemble etf inc))) ∧
       length (split_step 4000 (remaining 4000 n (assemble etf inc))).1 ≤ 3999.
Proof.
  intros Hetf Hlen. set (m := remaining 4000 n (assemble etf inc)) in *.
  assert (Hm : nl ∈ take 4000 m).
  { apply remaining_has_newline; [lia|by apply assemble_has_newline]. }
  destruct (split_step_at_newline 4000 m Hm) as (k & Hk & Hnl & Hstep).
  exists k. split; [done|]. split; [done|]. split; [done|].
  rewrite Hstep. cbn [fst]. pose proof (strip_length (take k m)) as Hs.
  rewrite length_take in Hs. lia.
Qed.

Lemma every_cut_is_at_a_newline_witness :
  ∃ k, k < 4000 ∧
       remaining 4000 5 (assemble (lit "VTI") [long_story]) !! k = Some nl ∧
       split_step 4000 (remaining 4000 5 (assemble (lit "VTI") [long_story])) =
         (strip (take k (remaining 4000 5 (assemble (lit "VTI") [long_story]))),
          drop k (remaining 4000 5 (assemble (lit "VTI") [long_story]))) ∧
       length (split_step 4000 (remaining 4000 5 (assemble (lit "VTI") [long_story]))).1
       ≤ 3999.
Proof.
  apply (every_cut_is_at_a_newline (lit "VTI") [long_story] 5).
  - apply Nat.ltb_lt. vm_compute. reflexivity.
  - apply Nat.ltb_lt. vm_compute. reflexivity.
Defined.




